(** * minicoros: futures over continuation chains

    A shallow embedding of [include/minicoros/future.h].  Every C++ call of
    type [void] becomes an action tree ([act]); the tree is run against a
    [world] made of an observation trace, the heap of shared aggregators and
    the completions that the outside world still owes.  Promises and sinks
    are functions into [act], exactly as the C++ code passes callables.

    The claims are settled at the end.  Pipelines that complete before they
    return are handled by [delivers]: a run is a prologue, one invocation of
    the promise and an epilogue.  Pipelines with completions that come later
    are handled by the invariant [inv] over the promises that are still
    outstanding, which holds under every order of completion. *)

From Stdlib Require Import ZArith String.
From stdpp Require Import base list gmap.

Local Open Scope Z_scope.
Local Open Scope nat_scope.

#[local] Set Warnings "-clear-no-such-hyp".

(** ** Values that flow along a chain *)

(** The template parameter [T] of [future<T>] ranges over one universal
    domain of values; [VVoid] is the empty payload of [T = void]. *)
#[warnings="-register-all"]
Inductive val : Type :=
| VVoid
| VInt (z : Z)
| VStr (s : string)
| VTuple (items : list val).
Arguments VInt z%_Z.
Arguments VStr s%_string.

(** Modelled from the spec: [MINICOROS_ERROR_TYPE] comes from the absent
    [types.h]; the payload of [failure] is an integer error code as in every
    example of the header. *)
Definition error_type : Type := Z.

(** Modelled from the spec: [failure] of the absent [types.h], a holder of
    one error value. *)
Record failure : Type := Failure { error : error_type }.
Arguments Failure error%_Z.

(** Modelled from the spec: [concrete_result<T>] of the absent [types.h], the
    tagged union of a successful value and a [failure]. *)
Inductive concrete_result : Type :=
| Success (value : val)
| Failed (f : failure).

Definition success (r : concrete_result) : bool :=
  match r with Success _ => true | Failed _ => false end.

Definition get_failure (r : concrete_result) : option failure :=
  match r with Success _ => None | Failed f => Some f end.

(** ** Observations *)

(** What a side-effect probe can see: a starter callable being entered, a
    user callback being entered with its argument, a terminal sink being
    handed the final outcome. *)
Inductive event : Type :=
| EvStart (id : nat)
| EvCall (id : nat) (arg : concrete_result)
| EvSink (id : nat) (r : concrete_result).

(** ** Shared aggregator state *)

(** The mutable members of the two collectors that [std::make_shared]
    allocates: the two optional slots of [tuple_result] and the one-shot flag
    of [any_result]. *)
Inductive cell : Type :=
| TupleCell (lhs rhs : option concrete_result)
| AnyCell (resolved : bool).

(** ** Action trees: the body of a [void] call *)

Inductive act : Type :=
| Ret
| Emit (e : event) (k : act)
| MakeShared (init : cell) (k : nat -> act)
| Load (c : nat) (k : option cell -> act)
| Store (c : nat) (x : cell) (k : act)
| Post (work : act) (k : act).

(** Two statements one after the other. *)
Fixpoint seq (a b : act) : act :=
  match a with
  | Ret => b
  | Emit e k => Emit e (seq k b)
  | MakeShared init k => MakeShared init (fun c => seq (k c) b)
  | Load c k => Load c (fun x => seq (k x) b)
  | Store c x k => Store c x (seq k b)
  | Post work k => Post work (seq k b)
  end.

Record world : Type := World {
  trace : list event;
  heap : list cell;
  pending : list act
}.

Definition empty_world : world := World [] [] [].

Fixpoint exec (a : act) (w : world) : world :=
  match a with
  | Ret => w
  | Emit e k => exec k (World (trace w ++ [e]) (heap w) (pending w))
  | MakeShared init k =>
      exec (k (length (heap w)))
           (World (trace w) (heap w ++ [init]) (pending w))
  | Load c k => exec (k (heap w !! c)) w
  | Store c x k => exec k (World (trace w) (<[c:=x]> (heap w)) (pending w))
  | Post work k => exec k (World (trace w) (heap w) (pending w ++ [work]))
  end.

(** The outside world completes the [i]-th outstanding piece of work. *)
Definition complete (i : nat) (w : world) : world :=
  match pending w !! i with
  | Some work => exec work (World (trace w) (heap w) (delete i (pending w)))
  | None => w
  end.

Fixpoint drain (schedule : list nat) (w : world) : world :=
  match schedule with
  | [] => w
  | i :: rest => drain rest (complete i w)
  end.

(** ** continuation_chain *)

Definition continuation (T : Type) : Type := T -> act.

(** [promise<T>]: invoked with a value or with a failure, it hands one
    [concrete_result] to the next stage. *)
Definition promise : Type := continuation concrete_result.

(** Modelled from the spec: [continuation_chain] of the absent
    [continuation_chain.h].  [construct] wraps the starter, [transform]
    appends a stage adapter, [evaluate_into] drives the chain into a sink and
    [cancel] (like dropping an unevaluated chain) runs nothing. *)
Record continuation_chain : Type := Chain {
  activator : continuation promise
}.

Definition transform (chain : continuation_chain)
    (stage : concrete_result -> promise -> act) : continuation_chain :=
  Chain (fun sink => activator chain (fun r => stage r sink)).

Definition evaluate_into (chain : continuation_chain) (sink : promise) : act :=
  activator chain sink.

Definition cancel (chain : continuation_chain) : act := Ret.

(** ** future and result *)

Record future : Type := Future { chain : continuation_chain }.

Definition future_of_starter (callback : continuation promise) : future :=
  Future (Chain callback).

(** The envelope returned by a [then] callback. *)
Inductive result : Type :=
| RValue (v : val)
| RFuture (coro : future)
| RFailure (f : failure).

(** [result<T>::resolve_promise] *)
Definition resolve_promise (res : result) (p : promise) : act :=
  match res with
  | RValue v => p (Success v)
  | RFuture coro => evaluate_into (chain coro) p
  | RFailure f => p (Failed f)
  end.

(** ** User callables, observed through probes *)

(** A [then] callback: entered with the value, returns a [result]. *)
Record then_callback : Type := ThenCallback {
  then_id : nat;
  then_body : val -> result
}.

(** What a [fail] callback may return: [mc::result<U>] or a bare
    [mc::failure]. *)
Inductive fail_return : Type :=
| ReturnsResult (res : result)
| ReturnsFailure (f : failure).

Record fail_callback : Type := FailCallback {
  fail_id : nat;
  fail_body : error_type -> fail_return
}.

(** A [map]/[finally] callback: takes and returns a [concrete_result]. *)
Record map_callback : Type := MapCallback {
  map_id : nat;
  map_body : concrete_result -> concrete_result
}.

(** [mc::result<ReturnType> res{callback(...)}]: the converting constructors
    of [result]. *)
Definition result_of_return (ret : fail_return) : result :=
  match ret with
  | ReturnsResult res => res
  | ReturnsFailure f => RFailure f
  end.

(** Entering a [then] callback with [v] and using the [result] it
    returns. *)
Definition call_then (callback : then_callback) (v : val)
    (use : result -> act) : act :=
  Emit (EvCall (then_id callback) (Success v)) (use (then_body callback v)).

(** Modelled from the spec: [concrete_result::resolve_promise_with_callback]
    of the absent [types.h]; applied only to a success, it hands the payload
    to the callback, wraps what the callback returns in a [result] and has
    that result deliver into the promise. *)
Definition resolve_promise_with_callback (r : concrete_result)
    (callback : then_callback) (p : promise) : act :=
  match r with
  | Success v => call_then callback v (fun res => resolve_promise res p)
  | Failed _ => Ret
  end.

(** ** Internal aggregators *)

(** Tuple flattening of the join: a tuple contributes its components, [void]
    contributes nothing, anything else contributes itself. *)
Definition components (v : val) : list val :=
  match v with
  | VTuple items => items
  | VVoid => []
  | _ => [v]
  end.

Definition merge (lhs rhs : val) : val :=
  VTuple (components lhs ++ components rhs).

(** The outcome a join emits once both sides have reported;
    [lhs_first] says which side reported first. *)
Definition join_outcome (lhs_first : bool) (lhs rhs : concrete_result)
    : concrete_result :=
  match lhs, rhs with
  | Success a, Success b => Success (merge a b)
  | Failed f, Success _ => Failed f
  | Success _, Failed f => Failed f
  | Failed fl, Failed fr => Failed (if lhs_first then fl else fr)
  end.

(** Modelled from the spec: [detail::tuple_result] of the absent
    [detail/operation_helpers.h]: two optional slots for the LHS and RHS
    outcomes plus the downstream promise; once both slots are filled it emits
    the merged outcome.  The handle carries the promise, which is set by the
    constructor and never reassigned; the slots live in the shared cell. *)
Record tuple_result : Type := TupleResult {
  tuple_cell : nat;
  tuple_promise : promise
}.

Definition make_tuple_result (p : promise) (body : tuple_result -> act) : act :=
  MakeShared (TupleCell None None) (fun c => body (TupleResult c p)).

Definition assign_lhs (b : tuple_result) (r : concrete_result) : act :=
  Load (tuple_cell b) (fun x =>
    match x with
    | Some (TupleCell _ rhs) =>
        Store (tuple_cell b) (TupleCell (Some r) rhs)
          match rhs with
          | Some r' => tuple_promise b (join_outcome false r r')
          | None => Ret
          end
    | _ => Ret
    end).

Definition assign_rhs (b : tuple_result) (r : concrete_result) : act :=
  Load (tuple_cell b) (fun x =>
    match x with
    | Some (TupleCell lhs _) =>
        Store (tuple_cell b) (TupleCell lhs (Some r))
          match lhs with
          | Some l => tuple_promise b (join_outcome true l r)
          | None => Ret
          end
    | _ => Ret
    end).

(** Modelled from the spec: [detail::any_result] of the absent
    [detail/operation_helpers.h]: a one-shot "first wins" slot plus the
    downstream promise; the first arrival emits, later arrivals are
    dropped. *)
Record any_result : Type := AnyResult {
  any_cell : nat;
  any_promise : promise
}.

Definition make_any_result (p : promise) (body : any_result -> act) : act :=
  MakeShared (AnyCell false) (fun c => body (AnyResult c p)).

Definition assign (b : any_result) (r : concrete_result) : act :=
  Load (any_cell b) (fun x =>
    match x with
    | Some (AnyCell false) =>
        Store (any_cell b) (AnyCell true) (any_promise b r)
    | _ => Ret
    end).

(** ** The combinators of [future<T>] *)

(** [future::then(CallbackType&&)] *)
Definition future_then (self : future) (callback : then_callback) : future :=
  Future (transform (chain self) (fun r p =>
    if success r then resolve_promise_with_callback r callback p
    else match get_failure r with
         | Some f => p (Failed f)
         | None => Ret
         end)).

(** [future::then(future<ReturnType>&&)] *)
Definition future_then_coro (self coro : future) : future :=
  let coro_chain := chain coro in
  Future (transform (chain self) (fun r p =>
    if success r then evaluate_into coro_chain p
    else seq (cancel coro_chain)
             match get_failure r with
             | Some f => p (Failed f)
             | None => Ret
             end)).

(** [future::fail] *)
Definition future_fail (self : future) (callback : fail_callback) : future :=
  Future (transform (chain self) (fun r p =>
    if success r then p r
    else match get_failure r with
         | Some f =>
             Emit (EvCall (fail_id callback) r)
               (resolve_promise
                  (result_of_return (fail_body callback (error f))) p)
         | None => Ret
         end)).

(** [future::map] *)
Definition future_map (self : future) (callback : map_callback) : future :=
  Future (transform (chain self) (fun r p =>
    Emit (EvCall (map_id callback) r) (p (map_body callback r)))).

(** [future::finally] *)
Definition future_finally (self : future) (callback : map_callback) : future :=
  future_map self callback.

(** [future::done] *)
Definition future_done (self : future) (callback : promise) : act :=
  evaluate_into (chain self) callback.

(** An executor accepts a zero-argument piece of work. *)
Definition executor : Type := act -> act.

Definition immediate_executor : executor := fun work => work.
Definition queue_executor : executor := fun work => Post work Ret.

(** [future::enqueue] *)
Definition future_enqueue (self : future) (ex : executor) : future :=
  Future (transform (chain self) (fun value p => ex (p value))).

(** [future::operator&&] *)
Definition future_and (self rhs : future) : future :=
  let lhs_chain := chain self in
  let rhs_chain := chain rhs in
  future_of_starter (fun p =>
    make_tuple_result p (fun result_builder =>
      seq (evaluate_into lhs_chain (fun r => assign_lhs result_builder r))
          (evaluate_into rhs_chain (fun r => assign_rhs result_builder r)))).

(** [future::operator||] *)
Definition future_or (self rhs : future) : future :=
  let lhs_chain := chain self in
  let rhs_chain := chain rhs in
  future_of_starter (fun p =>
    make_any_result p (fun result_builder =>
      seq (evaluate_into lhs_chain (fun r => assign result_builder r))
          (evaluate_into rhs_chain (fun r => assign result_builder r)))).

(** [future::operator>>] *)
Definition future_sequence (self rhs : future) : future :=
  let lhs_chain := chain self in
  let rhs_chain := chain rhs in
  future_of_starter (fun p =>
    make_tuple_result p (fun result_builder =>
      evaluate_into lhs_chain (fun r =>
        seq (assign_lhs result_builder r)
            (evaluate_into rhs_chain
               (fun r' => assign_rhs result_builder r'))))).

(** [make_successful_future(T&&)] and [make_failed_future<T>] *)
Definition make_successful_future (value : val) : future :=
  future_of_starter (fun p => p (Success value)).

Definition make_failed_future (e : error_type) : future :=
  future_of_starter (fun p => p (Failed (Failure e))).
Arguments make_failed_future e%_Z.

(** ** Probes standing for user code *)

(** A starter that invokes its promise before it returns. *)
Definition sync_starter (id : nat) (r : concrete_result)
    : continuation promise :=
  fun p => Emit (EvStart id) (p r).

(** A starter that stashes its promise with the outside world and returns;
    the promise is invoked with [r] when the outside world completes it. *)
Definition deferred_starter (id : nat) (r : concrete_result)
    : continuation promise :=
  fun p => Emit (EvStart id) (Post (p r) Ret).

(** A terminal sink that records the outcome it is handed. *)
Definition sink (id : nat) : promise := fun r => Emit (EvSink id r) Ret.

(** ** Type arithmetic of the callback return types *)

#[warnings="-register-all"]
Inductive cpp_type : Type :=
| TVoid
| TInt
| TString
| TTuple (items : list cpp_type)
| TFailure
| TResult (t : cpp_type)
| TConcreteResult (t : cpp_type).

(** [detail::resulting_successful_type]: [None] is the [static_assert]. *)
Definition resulting_successful_type (returned : cpp_type) : option cpp_type :=
  match returned with
  | TResult t => Some t
  | TVoid => Some TVoid
  | _ => None
  end.

(** [detail::resulting_failure_type]: [None] is the [static_assert]. *)
Definition resulting_failure_type (returned fallback : cpp_type)
    : option cpp_type :=
  match returned with
  | TResult t => Some t
  | TFailure => Some fallback
  | _ => None
  end.

(** ** Pipelines whose starters complete before they return *)

(** The futures that can be written with the factory helpers, starters that
    invoke their promise before returning, and the combinators; a callback
    may return any envelope, nested futures included. *)
Inductive pipeline : future -> Prop :=
| pipe_successful v : pipeline (make_successful_future v)
| pipe_failed e : pipeline (make_failed_future e)
| pipe_starter id r : pipeline (future_of_starter (sync_starter id r))
| pipe_then f cb :
    pipeline f -> (forall v, envelope (then_body cb v)) ->
    pipeline (future_then f cb)
| pipe_then_coro f coro :
    pipeline f -> pipeline coro -> pipeline (future_then_coro f coro)
| pipe_fail f cb :
    pipeline f -> (forall e, envelope (result_of_return (fail_body cb e))) ->
    pipeline (future_fail f cb)
| pipe_map f cb : pipeline f -> pipeline (future_map f cb)
| pipe_finally f cb : pipeline f -> pipeline (future_finally f cb)
| pipe_enqueue f : pipeline f -> pipeline (future_enqueue f immediate_executor)
| pipe_and f g : pipeline f -> pipeline g -> pipeline (future_and f g)
| pipe_or f g : pipeline f -> pipeline g -> pipeline (future_or f g)
| pipe_sequence f g : pipeline f -> pipeline g -> pipeline (future_sequence f g)
with envelope : result -> Prop :=
| env_value v : envelope (RValue v)
| env_failure f : envelope (RFailure f)
| env_future coro : pipeline coro -> envelope (RFuture coro).

Scheme pipeline_envelope_ind := Minimality for pipeline Sort Prop
  with envelope_pipeline_ind := Minimality for envelope Sort Prop.

(** ** Reading a trace *)

Definition is_sink (id : nat) (e : event) : bool :=
  match e with EvSink id' _ => Nat.eqb id id' | _ => false end.

Definition is_start (id : nat) (e : event) : bool :=
  match e with EvStart id' => Nat.eqb id id' | _ => false end.

Definition is_call (id : nat) (e : event) : bool :=
  match e with EvCall id' _ => Nat.eqb id id' | _ => false end.

Definition count (p : event -> bool) (tr : list event) : nat :=
  length (filter (fun e => p e = true) tr).

(** No sink is handed anything in this stretch of the trace. *)
Definition quiet (tr : list event) : Prop :=
  Forall (fun e => forall id, is_sink id e = false) tr.

(** The events added between two worlds. *)
Definition new_events (before after : world) : list event :=
  drop (length (trace before)) (trace after).

(** ** Frames *)

(** [w'] is [w] after some chain code ran to its end: sinks saw nothing, the
    heap only grew, the cells below [n] are untouched and nothing was left
    with the outside world. *)
Record advances (n : nat) (w w' : world) : Prop := Advances {
  adv_trace : exists tr, trace w' = trace w ++ tr /\ quiet tr;
  adv_length : length (heap w) <= length (heap w');
  adv_cells : forall i, i < n -> heap w' !! i = heap w !! i;
  adv_pending : pending w' = pending w
}.

(** A promise that leaves alone the cells allocated since index [n]. *)
Definition respects (n : nat) (k : promise) : Prop :=
  forall r w, n <= length (heap w) ->
    length (heap w) <= length (heap (exec (k r) w)) /\
    (forall i, n <= i < length (heap w) ->
       heap (exec (k r) w) !! i = heap w !! i) /\
    pending (exec (k r) w) = pending w.

(** Evaluating [f] hands [r] to the promise exactly once: whatever the
    promise, the run is a prologue up to [w1], the one invocation, and an
    epilogue [post] that does not depend on the promise. *)
Definition delivers (run : promise -> act) (r : concrete_result) : Prop :=
  forall w, exists w1 post,
    advances (length (heap w)) w w1 /\
    (forall w', length (heap w1) <= length (heap w') ->
       advances (length (heap w)) w' (post w')) /\
    (forall k, respects (length (heap w)) k ->
       exec (run k) w = post (exec (k r) w1)).

Definition yields (f : future) (r : concrete_result) : Prop :=
  delivers (future_done f) r.

(** ** Worked pipelines *)

Definition log (e : event) (w : world) : world :=
  World (trace w ++ [e]) (heap w) (pending w).

(** A join of a value with a race, followed by a stage that returns a
    nested future. *)
Definition joined_pipeline : future :=
  future_then
    (future_and (make_successful_future (VInt 1))
       (future_or (future_of_starter (sync_starter 0 (Success (VStr "a"))))
                  (make_failed_future 2)))
    (ThenCallback 7 (fun v => RFuture (make_successful_future v))).

(** Callbacks used in the worked pipelines. *)
Definition echo_callback : then_callback :=
  ThenCallback 1 (fun v => RValue v).

Definition recover_callback : fail_callback :=
  FailCallback 2 (fun e => ReturnsResult (RValue (VInt (e + 1)))).

Definition rethrow_callback : fail_callback :=
  FailCallback 3 (fun e => ReturnsFailure (Failure e)).

(** The world after [std::make_shared] of a collector, and after one of its
    members was written. *)
Definition new_cell (x : cell) (w : world) : world :=
  World (trace w) (heap w ++ [x]) (pending w).

Definition set_cell (c : nat) (x : cell) (w : world) : world :=
  World (trace w) (<[c:=x]> (heap w)) (pending w).

Definition negate_callback : map_callback :=
  MapCallback 4 (fun r =>
    match r with
    | Success _ => Failed (Failure 1)
    | Failed f => Success (VInt (error f))
    end).

(** ** Pipelines whose completions may come later *)

(** As [pipeline], with starters that may leave their promise with the
    outside world and stages that may be queued on an executor. *)
Inductive scheduled : future -> Prop :=
| sch_successful v : scheduled (make_successful_future v)
| sch_failed e : scheduled (make_failed_future e)
| sch_starter id r : scheduled (future_of_starter (sync_starter id r))
| sch_deferred id r : scheduled (future_of_starter (deferred_starter id r))
| sch_then f cb :
    scheduled f -> (forall v, scheduled_envelope (then_body cb v)) ->
    scheduled (future_then f cb)
| sch_then_coro f coro :
    scheduled f -> scheduled coro -> scheduled (future_then_coro f coro)
| sch_fail f cb :
    scheduled f ->
    (forall e, scheduled_envelope (result_of_return (fail_body cb e))) ->
    scheduled (future_fail f cb)
| sch_map f cb : scheduled f -> scheduled (future_map f cb)
| sch_finally f cb : scheduled f -> scheduled (future_finally f cb)
| sch_enqueue_now f :
    scheduled f -> scheduled (future_enqueue f immediate_executor)
| sch_enqueue_later f :
    scheduled f -> scheduled (future_enqueue f queue_executor)
| sch_and f g : scheduled f -> scheduled g -> scheduled (future_and f g)
| sch_or f g : scheduled f -> scheduled g -> scheduled (future_or f g)
| sch_sequence f g :
    scheduled f -> scheduled g -> scheduled (future_sequence f g)
with scheduled_envelope : result -> Prop :=
| sen_value v : scheduled_envelope (RValue v)
| sen_failure f : scheduled_envelope (RFailure f)
| sen_future coro : scheduled coro -> scheduled_envelope (RFuture coro).

Scheme scheduled_mut_ind := Minimality for scheduled Sort Prop
  with scheduled_envelope_mut_ind :=
    Minimality for scheduled_envelope Sort Prop.

(** ** The promises an evaluation creates *)

(** The stage adapters that [transform] appends. *)
Inductive stage : Type :=
| SThen (cb : then_callback)
| SThenCoro (coro : future)
| SFail (cb : fail_callback)
| SMap (cb : map_callback)
| SEnqueue (ex : executor).

Definition stage_fun (s : stage) : concrete_result -> promise -> act :=
  match s with
  | SThen callback => fun r p =>
      if success r then resolve_promise_with_callback r callback p
      else match get_failure r with
           | Some f => p (Failed f)
           | None => Ret
           end
  | SThenCoro coro => fun r p =>
      if success r then evaluate_into (chain coro) p
      else seq (cancel (chain coro))
               match get_failure r with
               | Some f => p (Failed f)
               | None => Ret
               end
  | SFail callback => fun r p =>
      if success r then p r
      else match get_failure r with
           | Some f =>
               Emit (EvCall (fail_id callback) r)
                 (resolve_promise
                    (result_of_return (fail_body callback (error f))) p)
           | None => Ret
           end
  | SMap callback => fun r p =>
      Emit (EvCall (map_id callback) r) (p (map_body callback r))
  | SEnqueue ex => fun value p => ex (p value)
  end.

(** Every promise that the evaluation of a pipeline into a terminal sink
    creates: the sink itself, a stage adapter in front of a promise, or one
    of the lambdas that the operators hand to their operands. *)
Inductive kont : Type :=
| KSink (sid : nat)
| KStage (s : stage) (next : kont)
| KLhs (c : nat) (next : kont)
| KRhs (c : nat) (next : kont)
| KSeq (c : nat) (rhs : future) (next : kont)
| KAny (c : nat) (next : kont).

Fixpoint interp (k : kont) : promise :=
  match k with
  | KSink sid => sink sid
  | KStage s next => fun r => stage_fun s r (interp next)
  | KLhs c next => fun r => assign_lhs (TupleResult c (interp next)) r
  | KRhs c next => fun r => assign_rhs (TupleResult c (interp next)) r
  | KSeq c rhs next => fun r =>
      seq (assign_lhs (TupleResult c (interp next)) r)
          (evaluate_into (chain rhs)
             (fun r' => assign_rhs (TupleResult c (interp next)) r'))
  | KAny c next => fun r => assign (AnyResult c (interp next)) r
  end.

Inductive stage_ok : stage -> Prop :=
| ok_then cb :
    (forall v, scheduled_envelope (then_body cb v)) -> stage_ok (SThen cb)
| ok_then_coro coro : scheduled coro -> stage_ok (SThenCoro coro)
| ok_fail cb :
    (forall e, scheduled_envelope (result_of_return (fail_body cb e))) ->
    stage_ok (SFail cb)
| ok_map cb : stage_ok (SMap cb)
| ok_enqueue_now : stage_ok (SEnqueue immediate_executor)
| ok_enqueue_later : stage_ok (SEnqueue queue_executor).

Fixpoint kont_ok (sid : nat) (k : kont) : Prop :=
  match k with
  | KSink sid' => sid' = sid
  | KStage s next => stage_ok s /\ kont_ok sid next
  | KLhs _ next | KRhs _ next | KAny _ next => kont_ok sid next
  | KSeq _ rhs next => scheduled rhs /\ kont_ok sid next
  end.

Fixpoint kont_size (k : kont) : nat :=
  match k with
  | KSink _ => 0
  | KStage _ next | KLhs _ next | KRhs _ next | KSeq _ _ next
  | KAny _ next => S (kont_size next)
  end.

(** ** Who still owes an invocation *)

(** [covers h leaves k cells]: the promises in [leaves], each still to be
    invoked once, are those from which [k] will be invoked exactly once;
    [cells] are the collectors in between, with the state [h] must hold for
    them. *)
Inductive covers (h : list cell) : list kont -> kont -> gset nat -> Prop :=
| C_leaf k : covers h [k] k ∅
| C_stage s k ls cs : covers h ls (KStage s k) cs -> covers h ls k cs
| C_both c k l1 l2 ls c1 c2 :
    h !! c = Some (TupleCell None None) ->
    covers h l1 (KLhs c k) c1 -> covers h l2 (KRhs c k) c2 ->
    ls ≡ₚ l1 ++ l2 -> c ∉ c1 ∪ c2 -> c1 ## c2 ->
    covers h ls k ({[c]} ∪ c1 ∪ c2)
| C_seq c rhs k ls cs :
    h !! c = Some (TupleCell None None) ->
    covers h ls (KSeq c rhs k) cs -> c ∉ cs ->
    covers h ls k ({[c]} ∪ cs)
| C_lhs_left c r k ls cs :
    h !! c = Some (TupleCell None (Some r)) ->
    covers h ls (KLhs c k) cs -> c ∉ cs ->
    covers h ls k ({[c]} ∪ cs)
| C_rhs_left c r k ls cs :
    h !! c = Some (TupleCell (Some r) None) ->
    covers h ls (KRhs c k) cs -> c ∉ cs ->
    covers h ls k ({[c]} ∪ cs)
| C_any c k l1 l2 ls c1 c2 :
    h !! c = Some (AnyCell false) ->
    covers h l1 (KAny c k) c1 -> covers h l2 (KAny c k) c2 ->
    ls ≡ₚ l1 ++ l2 -> c ∉ c1 ∪ c2 -> c1 ## c2 ->
    covers h ls k ({[c]} ∪ c1 ∪ c2).

(** The whole of what is outstanding: at most one group of promises that
    leads to the terminal sink ([live]), and groups that lead to a race
    collector which has already resolved. *)
Inductive forest (sid : nat) (h : list cell)
    : bool -> list kont -> gset nat -> Prop :=
| forest_nil : forest sid h false [] ∅
| forest_live l cs ls' cs' ls :
    covers h l (KSink sid) cs -> forest sid h false ls' cs' ->
    ls ≡ₚ l ++ ls' -> cs ## cs' ->
    forest sid h true ls (cs ∪ cs')
| forest_dead c k l cs live ls' cs' ls :
    h !! c = Some (AnyCell true) ->
    covers h l (KAny c k) cs -> forest sid h live ls' cs' ->
    ls ≡ₚ l ++ ls' -> c ∉ cs ∪ cs' -> cs ## cs' ->
    forest sid h live ls ({[c]} ∪ cs ∪ cs').

Definition task (entry : kont * concrete_result) : act :=
  interp (fst entry) (snd entry).

(** The invariant of an evaluation into [sink sid] that started with
    [base] sink events in the trace: [hand] are the promises held by the
    code that is running, the others are held by the outside world. *)
Definition inv (sid base : nat) (w : world) (live : bool) (hand : list kont)
    : Prop :=
  exists (pool : list (kont * concrete_result)) (cs : gset nat),
    pending w = (task <$> pool) /\
    forest sid (heap w) live (hand ++ (fst <$> pool)) cs /\
    (forall c, c ∈ cs -> c < length (heap w)) /\
    Forall (kont_ok sid) (hand ++ (fst <$> pool)) /\
    count (is_sink sid) (trace w) + (if live then 1 else 0) = S base.

Definition fires (sid base : nat) (k : kont) : Prop :=
  forall r w live hand,
    inv sid base w live (k :: hand) ->
    exists live', inv sid base (exec (interp k r) w) live' hand.

Definition evals (sid base : nat) (run : promise -> act) (k : kont) : Prop :=
  forall w live hand,
    inv sid base w live (k :: hand) ->
    exists live', inv sid base (exec (run (interp k)) w) live' hand.

(** The collector, if any, between an outstanding promise and the promise
    [parent] it invokes next. *)
Inductive node_at (h : list cell)
    : kont -> kont -> list kont -> gset nat -> Prop :=
| N_stage s p : node_at h (KStage s p) p [] ∅
| N_both_l c p lsib cs :
    h !! c = Some (TupleCell None None) ->
    covers h lsib (KRhs c p) cs -> c ∉ cs ->
    node_at h (KLhs c p) p lsib ({[c]} ∪ cs)
| N_both_r c p lsib cs :
    h !! c = Some (TupleCell None None) ->
    covers h lsib (KLhs c p) cs -> c ∉ cs ->
    node_at h (KRhs c p) p lsib ({[c]} ∪ cs)
| N_lhs_left c r p :
    h !! c = Some (TupleCell None (Some r)) ->
    node_at h (KLhs c p) p [] {[c]}
| N_rhs_left c r p :
    h !! c = Some (TupleCell (Some r) None) ->
    node_at h (KRhs c p) p [] {[c]}
| N_seq c rhs p :
    h !! c = Some (TupleCell None None) ->
    node_at h (KSeq c rhs p) p [] {[c]}
| N_any c p lsib cs :
    h !! c = Some (AnyCell false) ->
    covers h lsib (KAny c p) cs -> c ∉ cs ->
    node_at h (KAny c p) p lsib ({[c]} ∪ cs).

(** What remains of a group around the promise [p]: whatever comes to
    cover [p], in a heap that left the other collectors alone, covers [k]
    together with the other outstanding promises [lrest]. *)
Definition plugs (h : list cell) (p k : kont) (lrest : list kont)
    (crest : gset nat) : Prop :=
  forall h' lnew cnew,
    (forall c, c ∈ crest -> h' !! c = h !! c) ->
    cnew ## crest ->
    covers h' lnew p cnew ->
    covers h' (lnew ++ lrest) k (cnew ∪ crest).

(** The same around a promise [p] of any group of the forest. *)
Definition forest_plugs (sid : nat) (h : list cell) (live : bool) (p : kont)
    (lrest : list kont) (crest : gset nat) : Prop :=
  forall h' lnew cnew,
    (forall c, c ∈ crest -> h' !! c = h !! c) ->
    cnew ## crest ->
    covers h' lnew p cnew ->
    forest sid h' live (lnew ++ lrest) (cnew ∪ crest).

(** An outstanding promise is the terminal sink itself, or a collector that
    has resolved, or sits below a node of its group. *)
Inductive located (sid : nat) (h : list cell) (live : bool) (x : kont)
    (l0 : list kont) (cs : gset nat) : Prop :=
| at_sink :
    x = KSink sid -> live = true -> forest sid h false l0 cs ->
    located sid h live x l0 cs
| at_resolved c k cs' :
    x = KAny c k -> h !! c = Some (AnyCell true) ->
    cs = {[c]} ∪ cs' -> c ∉ cs' -> forest sid h live l0 cs' ->
    located sid h live x l0 cs
| at_node p lsib cn lrest crest :
    node_at h x p lsib cn -> l0 ≡ₚ lsib ++ lrest ->
    cs = cn ∪ crest -> cn ## crest ->
    forest_plugs sid h live p lrest crest ->
    located sid h live x l0 cs.

(** A join of a deferred value with a deferred race, followed by a stage
    whose nested future is queued on an executor. *)
Definition deferred_pipeline : future :=
  future_then
    (future_and (future_of_starter (deferred_starter 0 (Success (VInt 1))))
       (future_or
          (future_of_starter (deferred_starter 1 (Success (VStr "a"))))
          (future_of_starter (deferred_starter 2 (Failed (Failure 2))))))
    (ThenCallback 7 (fun v =>
       RFuture (future_enqueue (make_successful_future v) queue_executor))).

(** ** Chains of stages *)

(** Appending one stage to a future with the combinator it stands for. *)
Definition stage_apply (self : future) (s : stage) : future :=
  match s with
  | SThen callback => future_then self callback
  | SThenCoro coro => future_then_coro self coro
  | SFail callback => future_fail self callback
  | SMap callback => future_map self callback
  | SEnqueue ex => future_enqueue self ex
  end.

Definition after_stages (self : future) (stages : list stage) : future :=
  fold_left stage_apply stages self.

Definition is_then_stage (s : stage) : bool :=
  match s with SThen _ | SThenCoro _ => true | _ => false end.

Definition is_fail_stage (s : stage) : bool :=
  match s with SFail _ => true | _ => false end.

(** [f] invokes whatever promise it is evaluated into with [r], before
    returning and as the last thing it does, after the events [pre]. *)
Definition hands_over (f : future) (r : concrete_result) (pre : list event)
    : Prop :=
  forall k w,
    exec (future_done f k) w
    = exec (k r) (World (trace w ++ pre) (heap w) (pending w)).

(** The events a [fail] stage adds when it is handed [r]. *)
Definition fail_events (callback : fail_callback) (r : concrete_result)
    : list event :=
  if success r then [] else [EvCall (fail_id callback) r].

(** ** The checks on callback return types *)

(** [detail::is_result_v] *)
Definition is_result_v (t : cpp_type) : bool :=
  match t with TResult _ => true | _ => false end.

Definition is_void_v (t : cpp_type) : bool :=
  match t with TVoid => true | _ => false end.

Definition is_failure_v (t : cpp_type) : bool :=
  match t with TFailure => true | _ => false end.

(** [resulting_successful_type<R>::CallbackHasCorrectReturnType], the
    condition of the [static_assert] in the primary template. *)
Definition then_return_type_ok (returned : cpp_type) : bool :=
  is_result_v returned || is_void_v returned.

(** [resulting_failure_type<R, F>::CallbackHasCorrectReturnType] *)
Definition fail_return_type_ok (returned : cpp_type) : bool :=
  is_result_v returned || is_failure_v returned.

(** * Properties *)

(** ** Running action trees *)

Lemma exec_seq a b w : exec (seq a b) w = exec b (exec a w).
Proof.
  revert w. induction a as [|e k IH|init k IH|c k IH|c x k IH|work _ k IH];
    intros w; simpl; auto.
Qed.

Lemma quiet_nil : quiet [].
Proof. constructor. Qed.

Lemma quiet_app tr1 tr2 : quiet tr1 -> quiet tr2 -> quiet (tr1 ++ tr2).
Proof. unfold quiet. intros H1 H2. apply Forall_app. split; assumption. Qed.

Lemma quiet_start id : quiet [EvStart id].
Proof. repeat constructor. Qed.

Lemma quiet_call id r : quiet [EvCall id r].
Proof. repeat constructor. Qed.

Create HintDb frames.
#[local] Hint Resolve quiet_nil quiet_app quiet_start quiet_call : frames.

Lemma advances_refl n w : advances n w w.
Proof.
  split; auto. exists []. rewrite app_nil_r. auto with frames.
Qed.

Lemma advances_trans n m w1 w2 w3 :
  n <= m -> advances n w1 w2 -> advances m w2 w3 -> advances n w1 w3.
Proof.
  intros Hnm [[t1 [E1 Q1]] L1 C1 P1] [[t2 [E2 Q2]] L2 C2 P2]. split.
  - exists (t1 ++ t2). rewrite E2, E1, app_assoc. auto with frames.
  - lia.
  - intros i Hi. rewrite C2 by lia. apply C1. exact Hi.
  - congruence.
Qed.

Lemma advances_step n w1 w2 w3 :
  advances n w1 w2 -> advances n w2 w3 -> advances n w1 w3.
Proof. apply advances_trans. lia. Qed.

Lemma advances_weaken n m w w' : n <= m -> advances m w w' -> advances n w w'.
Proof.
  intros Hnm [T L C P]. split; auto. intros i Hi. apply C. lia.
Qed.

Lemma advances_emit n w e :
  (forall id, is_sink id e = false) ->
  advances n w (World (trace w ++ [e]) (heap w) (pending w)).
Proof.
  intros He. split; simpl; auto. exists [e]. split; auto.
  repeat constructor. exact He.
Qed.

Lemma advances_alloc w x :
  advances (length (heap w)) w (World (trace w) (heap w ++ [x]) (pending w)).
Proof.
  split; simpl; auto.
  - exists []. rewrite app_nil_r. auto with frames.
  - rewrite length_app. lia.
  - intros i Hi. apply lookup_app_l. exact Hi.
Qed.

Lemma advances_store n c x w :
  n <= c ->
  advances n w (World (trace w) (<[c:=x]> (heap w)) (pending w)).
Proof.
  intros Hc. split; simpl; auto.
  - exists []. rewrite app_nil_r. auto with frames.
  - rewrite length_insert. lia.
  - intros i Hi. apply list_lookup_insert_ne. lia.
Qed.

Lemma respects_mono n m k : n <= m -> respects n k -> respects m k.
Proof.
  intros Hnm Hk r w Hw. destruct (Hk r w) as (L & C & P); [lia|].
  repeat split; auto. intros i Hi. apply C. lia.
Qed.

Lemma respects_sink n id : respects n (sink id).
Proof. intros r w _. simpl. auto. Qed.

Lemma respects_dead n : respects n (fun _ => Ret).
Proof. intros r w _. simpl. auto. Qed.

(** ** Single delivery, combinator by combinator *)

Lemma delivers_now r : delivers (fun k => k r) r.
Proof.
  intros w. exists w, (fun w' => w'). split; [apply advances_refl|].
  split; [intros; apply advances_refl|]. reflexivity.
Qed.

Lemma delivers_emit e run r :
  (forall id, is_sink id e = false) ->
  delivers run r -> delivers (fun k => Emit e (run k)) r.
Proof.
  intros He Hrun w.
  destruct (Hrun (World (trace w ++ [e]) (heap w) (pending w)))
    as (w1 & post & A1 & Apost & Heq).
  simpl in *. exists w1, post. split; [|split].
  - eapply advances_trans; [|apply advances_emit; exact He|exact A1]. lia.
  - exact Apost.
  - intros k Hk. simpl. apply Heq. exact Hk.
Qed.

Lemma delivers_respects n stage k :
  (forall x, exists r', delivers (stage x) r') ->
  respects n k -> respects n (fun x => stage x k).
Proof.
  intros Hstage Hk x w Hw. destruct (Hstage x) as [r' Hd].
  destruct (Hd w) as (w1 & post & A1 & Apost & Heq).
  rewrite (Heq k) by (eapply respects_mono; [|exact Hk]; exact Hw).
  destruct A1 as [_ L1 C1 P1].
  destruct (Hk r' w1) as (Lk & Ck & Pk); [lia|].
  destruct (Apost (exec (k r') w1)) as [_ L2 C2 P2]; [lia|].
  split; [lia|]. split; [|congruence].
  intros i Hi. rewrite C2 by lia. rewrite Ck by lia. apply C1. lia.
Qed.

Lemma delivers_bind run stage r :
  delivers run r ->
  (forall x, exists r', delivers (stage x) r') ->
  exists r', delivers (stage r) r' /\
             delivers (fun k => run (fun x => stage x k)) r'.
Proof.
  intros Hrun Hstage. destruct (Hstage r) as [r' Hd]. exists r'.
  split; [exact Hd|]. intros w.
  destruct (Hrun w) as (w1 & post1 & A1 & Apost1 & Heq1).
  destruct (Hd w1) as (w2 & post2 & A2 & Apost2 & Heq2).
  exists w2, (fun w' => post1 (post2 w')). split; [|split].
  - eapply advances_trans; [|exact A1|exact A2]. apply A1.
  - intros w' Hw'. pose proof (Apost2 w' Hw') as B2.
    apply (advances_trans _ (length (heap w)) _ (post2 w')); [lia| |].
    + eapply advances_weaken; [|exact B2]. apply A1.
    + apply Apost1. destruct A2, B2. lia.
  - intros k Hk.
    rewrite Heq1 by (apply delivers_respects; assumption).
    rewrite Heq2; [reflexivity|].
    eapply respects_mono; [|exact Hk]. apply A1.
Qed.

Lemma respects_store m c x k :
  respects m k -> c < m ->
  forall r w, m <= length (heap w) ->
    let w' := exec (k r) (World (trace w) (<[c:=x]> (heap w)) (pending w)) in
    length (heap w) <= length (heap w') /\
    (forall i, m <= i < length (heap w) -> heap w' !! i = heap w !! i) /\
    pending w' = pending w.
Proof.
  intros Hk Hc r w Hw.
  destruct (Hk r (World (trace w) (<[c:=x]> (heap w)) (pending w)))
    as (L & C & P); simpl in *.
  { rewrite length_insert. exact Hw. }
  rewrite length_insert in L, C. split; [exact L|]. split; [|exact P].
  intros i Hi. rewrite C by exact Hi. apply list_lookup_insert_ne. lia.
Qed.

Lemma respects_assign_lhs m c k :
  respects m k -> c < m -> respects m (assign_lhs (TupleResult c k)).
Proof.
  intros Hk Hc r w Hw. unfold assign_lhs. simpl.
  destruct (heap w !! c) as [[l [r'|]|b]|]; simpl; auto.
  - apply respects_store; assumption.
  - rewrite length_insert. split; [lia|]. split; [|reflexivity].
    intros i Hi. apply list_lookup_insert_ne. lia.
Qed.

Lemma respects_assign_rhs m c k :
  respects m k -> c < m -> respects m (assign_rhs (TupleResult c k)).
Proof.
  intros Hk Hc r w Hw. unfold assign_rhs. simpl.
  destruct (heap w !! c) as [[[l|] r'|b]|]; simpl; auto.
  - apply respects_store; assumption.
  - rewrite length_insert. split; [lia|]. split; [|reflexivity].
    intros i Hi. apply list_lookup_insert_ne. lia.
Qed.

Lemma respects_assign m c k :
  respects m k -> c < m -> respects m (assign (AnyResult c k)).
Proof.
  intros Hk Hc r w Hw. unfold assign. simpl.
  destruct (heap w !! c) as [[l r'|[|]]|]; simpl; auto.
  apply respects_store; assumption.
Qed.

Lemma length_alloc (h : list cell) x : length (h ++ [x]) = S (length h).
Proof. rewrite length_app. simpl. lia. Qed.

Lemma lookup_alloc (h : list cell) x : (h ++ [x]) !! length h = Some x.
Proof. rewrite lookup_app_r by lia. rewrite Nat.sub_diag. reflexivity. Qed.

Lemma exec_make_tuple_result p body w :
  exec (make_tuple_result p body) w =
  exec (body (TupleResult (length (heap w)) p))
       (World (trace w) (heap w ++ [TupleCell None None]) (pending w)).
Proof. reflexivity. Qed.

Lemma exec_make_any_result p body w :
  exec (make_any_result p body) w =
  exec (body (AnyResult (length (heap w)) p))
       (World (trace w) (heap w ++ [AnyCell false]) (pending w)).
Proof. reflexivity. Qed.

Lemma exec_assign_lhs_first c p r w rhs0 :
  heap w !! c = Some (TupleCell rhs0 None) ->
  exec (assign_lhs (TupleResult c p) r) w =
  World (trace w) (<[c:=TupleCell (Some r) None]> (heap w)) (pending w).
Proof. intros H. unfold assign_lhs. simpl. rewrite H. reflexivity. Qed.

Lemma exec_assign_lhs_second c p r r' w lhs0 :
  heap w !! c = Some (TupleCell lhs0 (Some r')) ->
  exec (assign_lhs (TupleResult c p) r) w =
  exec (p (join_outcome false r r'))
       (World (trace w) (<[c:=TupleCell (Some r) (Some r')]> (heap w))
              (pending w)).
Proof. intros H. unfold assign_lhs. simpl. rewrite H. reflexivity. Qed.

Lemma exec_assign_rhs_first c p r w rhs0 :
  heap w !! c = Some (TupleCell None rhs0) ->
  exec (assign_rhs (TupleResult c p) r) w =
  World (trace w) (<[c:=TupleCell None (Some r)]> (heap w)) (pending w).
Proof. intros H. unfold assign_rhs. simpl. rewrite H. reflexivity. Qed.

Lemma exec_assign_rhs_second c p r l w rhs0 :
  heap w !! c = Some (TupleCell (Some l) rhs0) ->
  exec (assign_rhs (TupleResult c p) r) w =
  exec (p (join_outcome true l r))
       (World (trace w) (<[c:=TupleCell (Some l) (Some r)]> (heap w))
              (pending w)).
Proof. intros H. unfold assign_rhs. simpl. rewrite H. reflexivity. Qed.

Lemma exec_assign_first c p r w :
  heap w !! c = Some (AnyCell false) ->
  exec (assign (AnyResult c p) r) w =
  exec (p r) (World (trace w) (<[c:=AnyCell true]> (heap w)) (pending w)).
Proof. intros H. unfold assign. simpl. rewrite H. reflexivity. Qed.

Lemma exec_assign_later c p r w :
  heap w !! c = Some (AnyCell true) ->
  exec (assign (AnyResult c p) r) w = w.
Proof. intros H. unfold assign. simpl. rewrite H. reflexivity. Qed.

Lemma delivers_and runf rung r1 r2 :
  delivers runf r1 -> delivers rung r2 ->
  delivers (fun p => make_tuple_result p (fun b =>
              seq (runf (fun r => assign_lhs b r))
                  (rung (fun r => assign_rhs b r))))
           (join_outcome true r1 r2).
Proof.
  intros Hf Hg w.
  set (c := length (heap w)).
  set (wa := World (trace w) (heap w ++ [TupleCell None None]) (pending w)).
  assert (La : length (heap wa) = S c) by apply length_alloc.
  destruct (Hf wa) as (w1 & postf & A1 & Apf & Ef).
  set (w1' := World (trace w1) (<[c:=TupleCell (Some r1) None]> (heap w1))
                    (pending w1)).
  assert (L1 : S c <= length (heap w1)) by (destruct A1; lia).
  assert (B1 : advances (length (heap wa)) w1' (postf w1')).
  { apply Apf. simpl. rewrite length_insert. lia. }
  destruct (Hg (postf w1')) as (w2 & postg & A2 & Apg & Eg).
  set (w2' := World (trace w2)
                    (<[c:=TupleCell (Some r1) (Some r2)]> (heap w2))
                    (pending w2)).
  assert (L2 : S c <= length (heap (postf w1'))).
  { destruct B1 as [_ L _ _]. simpl in L. rewrite length_insert in L. lia. }
  assert (Hread1 : heap w1 !! c = Some (TupleCell None None)).
  { destruct A1 as [_ _ C _]. rewrite C by lia. apply lookup_alloc. }
  assert (Hread2 : heap w2 !! c = Some (TupleCell (Some r1) None)).
  { destruct A2 as [_ _ C _]. rewrite C by lia.
    destruct B1 as [_ _ C' _]. rewrite C' by lia. simpl.
    apply list_lookup_insert_eq. lia. }
  exists w2', postg. split; [|split].
  - apply (advances_step _ _ wa); [apply advances_alloc|].
    apply (advances_step _ _ w1); [eapply advances_weaken; [|exact A1]; lia|].
    apply (advances_step _ _ w1'); [apply advances_store; lia|].
    apply (advances_step _ _ (postf w1'));
      [eapply advances_weaken; [|exact B1]; lia|].
    apply (advances_step _ _ w2); [eapply advances_weaken; [|exact A2]; lia|].
    apply advances_store. lia.
  - intros w' Hw'. eapply advances_weaken; [|apply Apg]; [lia|].
    simpl in Hw'. rewrite length_insert in Hw'. exact Hw'.
  - intros k Hk. rewrite exec_make_tuple_result. fold c. fold wa.
    rewrite exec_seq.
    rewrite Ef by (apply respects_assign_lhs;
                   [eapply respects_mono; [|exact Hk]|]; lia).
    rewrite (exec_assign_lhs_first _ _ _ _ _ Hread1). fold w1'.
    rewrite Eg by (apply respects_assign_rhs;
                   [eapply respects_mono; [|exact Hk]|]; lia).
    rewrite (exec_assign_rhs_second _ _ _ _ _ _ Hread2). reflexivity.
Qed.

Lemma run_respects n run r s :
  delivers run r -> respects n s -> respects n (fun _ => run s).
Proof.
  intros Hd Hs x w Hw. apply (delivers_respects n (fun _ => run) s); auto.
  intros _. exists r. exact Hd.
Qed.

Lemma respects_seq m k1 k2 :
  respects m k1 -> respects m k2 -> respects m (fun r => seq (k1 r) (k2 r)).
Proof.
  intros H1 H2 r w Hw. rewrite exec_seq.
  destruct (H1 r w Hw) as (L1 & C1 & P1).
  destruct (H2 r (exec (k1 r) w)) as (L2 & C2 & P2); [lia|].
  split; [lia|]. split; [|congruence].
  intros i Hi. rewrite C2 by lia. apply C1. exact Hi.
Qed.

Lemma advances_assign_dead n c r w :
  n <= c -> advances n w (exec (assign (AnyResult c (fun _ => Ret)) r) w).
Proof.
  intros Hc. unfold assign. simpl.
  destruct (heap w !! c) as [[l r'|[|]]|]; simpl; try apply advances_refl.
  apply advances_store. exact Hc.
Qed.

Lemma delivers_or runf rung r1 r2 :
  delivers runf r1 -> delivers rung r2 ->
  delivers (fun p => make_any_result p (fun b =>
              seq (runf (fun r => assign b r))
                  (rung (fun r => assign b r))))
           r1.
Proof.
  intros Hf Hg w.
  set (c := length (heap w)).
  set (wa := World (trace w) (heap w ++ [AnyCell false]) (pending w)).
  assert (La : length (heap wa) = S c) by apply length_alloc.
  destruct (Hf wa) as (w1 & postf & A1 & Apf & Ef).
  set (w1' := World (trace w1) (<[c:=AnyCell true]> (heap w1)) (pending w1)).
  assert (L1 : S c <= length (heap w1)) by (destruct A1; lia).
  assert (Hread1 : heap w1 !! c = Some (AnyCell false)).
  { destruct A1 as [_ _ C _]. rewrite C by lia. apply lookup_alloc. }
  set (dead := AnyResult c (fun _ => Ret)).
  exists w1', (fun w' => exec (rung (fun r => assign dead r)) (postf w')).
  split; [|split].
  - apply (advances_step _ _ wa); [apply advances_alloc|].
    apply (advances_step _ _ w1); [eapply advances_weaken; [|exact A1]; lia|].
    apply advances_store. lia.
  - intros w' Hw'. simpl in Hw'. rewrite length_insert in Hw'. subst dead.
    pose proof (Apf w' Hw') as B1.
    assert (LX : S c <= length (heap (postf w'))) by (destruct B1; lia).
    destruct (Hg (postf w')) as (w2 & postg & A2 & Apg & Eg).
    rewrite Eg by (apply respects_assign; [apply respects_dead|lia]).
    apply (advances_step _ _ (postf w'));
      [eapply advances_weaken; [|exact B1]; lia|].
    apply (advances_step _ _ w2); [eapply advances_weaken; [|exact A2]; lia|].
    pose proof (advances_assign_dead c c r2 w2 (le_n c)) as B2.
    eapply advances_step; [exact B2|].
    eapply advances_weaken; [|apply Apg]; [lia|]. destruct B2. lia.
  - intros k Hk. subst dead. rewrite exec_make_any_result. fold c. fold wa.
    rewrite exec_seq.
    rewrite Ef by (apply respects_assign;
                   [eapply respects_mono; [|exact Hk]|]; lia).
    rewrite (exec_assign_first _ _ _ _ Hread1). fold w1'.
    destruct (Hk r1 w1') as (Lk & Ck & Pk).
    { simpl. rewrite length_insert. lia. }
    simpl in Lk, Ck. rewrite length_insert in Lk, Ck.
    assert (B1 : advances (length (heap wa)) (exec (k r1) w1')
                          (postf (exec (k r1) w1'))).
    { apply Apf. lia. }
    assert (LX : S c <= length (heap (postf (exec (k r1) w1')))).
    { destruct B1. lia. }
    destruct (Hg (postf (exec (k r1) w1'))) as (w2 & postg & A2 & Apg & Eg).
    assert (Hread2 : heap w2 !! c = Some (AnyCell true)).
    { destruct A2 as [_ _ C _]. rewrite C by lia.
      destruct B1 as [_ _ C' _]. rewrite C' by lia.
      rewrite Ck by lia. apply list_lookup_insert_eq. lia. }
    rewrite !Eg.
    + rewrite !(exec_assign_later _ _ _ _ Hread2). reflexivity.
    + apply respects_assign; [apply respects_dead|lia].
    + apply respects_assign; [eapply respects_mono; [|exact Hk]|]; lia.
Qed.

Lemma delivers_sequence runf rung r1 r2 :
  delivers runf r1 -> delivers rung r2 ->
  delivers (fun p => make_tuple_result p (fun b =>
              runf (fun r =>
                seq (assign_lhs b r)
                    (rung (fun r' => assign_rhs b r')))))
           (join_outcome true r1 r2).
Proof.
  intros Hf Hg w.
  set (c := length (heap w)).
  set (wa := World (trace w) (heap w ++ [TupleCell None None]) (pending w)).
  assert (La : length (heap wa) = S c) by apply length_alloc.
  destruct (Hf wa) as (w1 & postf & A1 & Apf & Ef).
  set (w1' := World (trace w1) (<[c:=TupleCell (Some r1) None]> (heap w1))
                    (pending w1)).
  assert (L1 : S c <= length (heap w1)) by (destruct A1; lia).
  assert (L1' : length (heap w1') = length (heap w1)).
  { simpl. apply length_insert. }
  destruct (Hg w1') as (w2 & postg & A2 & Apg & Eg).
  set (w2' := World (trace w2)
                    (<[c:=TupleCell (Some r1) (Some r2)]> (heap w2))
                    (pending w2)).
  assert (Hread1 : heap w1 !! c = Some (TupleCell None None)).
  { destruct A1 as [_ _ C _]. rewrite C by lia. apply lookup_alloc. }
  assert (Hread2 : heap w2 !! c = Some (TupleCell (Some r1) None)).
  { destruct A2 as [_ _ C _]. rewrite C by lia. simpl.
    apply list_lookup_insert_eq. lia. }
  assert (L2 : length (heap w1) <= length (heap w2)) by (destruct A2; lia).
  exists w2', (fun w' => postf (postg w')). split; [|split].
  - apply (advances_step _ _ wa); [apply advances_alloc|].
    apply (advances_step _ _ w1); [eapply advances_weaken; [|exact A1]; lia|].
    apply (advances_step _ _ w1'); [apply advances_store; lia|].
    apply (advances_step _ _ w2); [eapply advances_weaken; [|exact A2]; lia|].
    apply advances_store. lia.
  - intros w' Hw'. simpl in Hw'. rewrite length_insert in Hw'.
    pose proof (Apg w' Hw') as B2.
    apply (advances_step _ _ (postg w'));
      [eapply advances_weaken; [|exact B2]; lia|].
    eapply advances_weaken; [|apply Apf]; [lia|]. destruct B2. lia.
  - intros k Hk. rewrite exec_make_tuple_result. fold c. fold wa.
    assert (Hk' : respects (length (heap wa)) k).
    { eapply respects_mono; [|exact Hk]. lia. }
    rewrite Ef.
    + rewrite exec_seq. rewrite (exec_assign_lhs_first _ _ _ _ _ Hread1).
      fold w1'.
      rewrite Eg by (apply respects_assign_rhs;
                     [eapply respects_mono; [|exact Hk]|]; lia).
      rewrite (exec_assign_rhs_second _ _ _ _ _ _ Hread2). reflexivity.
    + apply (respects_seq _ (fun r => assign_lhs (TupleResult c k) r)
               (fun _ => rung (fun r' => assign_rhs (TupleResult c k) r'))).
      * apply respects_assign_lhs; [exact Hk'|lia].
      * eapply run_respects; [exact Hg|].
        apply respects_assign_rhs; [exact Hk'|lia].
Qed.

(** The stage adapters, applied to any inbound result. *)

Lemma then_stage_delivers cb :
  (forall v, exists r, delivers (resolve_promise (then_body cb v)) r) ->
  forall x, exists r',
    delivers (fun p =>
      if success x then resolve_promise_with_callback x cb p
      else match get_failure x with
           | Some f => p (Failed f)
           | None => Ret
           end) r'.
Proof.
  intros Hcb [v|f]; simpl.
  - destruct (Hcb v) as [r Hr]. exists r.
    apply delivers_emit; [reflexivity|exact Hr].
  - exists (Failed f). apply delivers_now.
Qed.

Lemma then_coro_stage_delivers coro r0 :
  yields coro r0 ->
  forall x, exists r',
    delivers (fun p =>
      if success x then evaluate_into (chain coro) p
      else seq (cancel (chain coro))
               match get_failure x with
               | Some f => p (Failed f)
               | None => Ret
               end) r'.
Proof.
  intros Hc [v|f]; simpl.
  - exists r0. exact Hc.
  - exists (Failed f). apply delivers_now.
Qed.

Lemma fail_stage_delivers cb :
  (forall e, exists r,
     delivers (resolve_promise (result_of_return (fail_body cb e))) r) ->
  forall x, exists r',
    delivers (fun p =>
      if success x then p x
      else match get_failure x with
           | Some f =>
               Emit (EvCall (fail_id cb) x)
                 (resolve_promise (result_of_return (fail_body cb (error f))) p)
           | None => Ret
           end) r'.
Proof.
  intros Hcb [v|f]; simpl.
  - exists (Success v). apply delivers_now.
  - destruct (Hcb (error f)) as [r Hr]. exists r.
    apply delivers_emit; [reflexivity|exact Hr].
Qed.

Lemma map_stage_delivers cb x :
  delivers (fun p => Emit (EvCall (map_id cb) x) (p (map_body cb x)))
           (map_body cb x).
Proof. apply delivers_emit; [reflexivity|apply delivers_now]. Qed.

Lemma stage_yields f stage r :
  yields f r ->
  (forall x, exists r', delivers (stage x) r') ->
  exists r', delivers (stage r) r' /\
             yields (Future (transform (chain f) stage)) r'.
Proof.
  intros Hf Hs.
  destruct (delivers_bind (future_done f) stage r Hf Hs) as (r' & H1 & H2).
  exists r'. split; [exact H1|exact H2].
Qed.

(** Every pipeline hands exactly one outcome to whatever promise it is
    evaluated into. *)
Lemma pipeline_yields f : pipeline f -> exists r, yields f r.
Proof.
  revert f.
  apply (pipeline_envelope_ind
           (fun f => exists r, yields f r)
           (fun res => exists r, delivers (resolve_promise res) r)).
  - intros v. exists (Success v). apply delivers_now.
  - intros e. exists (Failed (Failure e)). apply delivers_now.
  - intros id r. exists r.
    apply (delivers_emit (EvStart id) (fun k => k r)); [reflexivity|].
    apply delivers_now.
  - intros f cb _ [r Hf] _ Hcb.
    destruct (stage_yields f _ r Hf (then_stage_delivers cb Hcb))
      as (r' & _ & H). exists r'. exact H.
  - intros f coro _ [r Hf] _ [r0 Hc].
    destruct (stage_yields f _ r Hf (then_coro_stage_delivers coro r0 Hc))
      as (r' & _ & H). exists r'. exact H.
  - intros f cb _ [r Hf] _ Hcb.
    destruct (stage_yields f _ r Hf (fail_stage_delivers cb Hcb))
      as (r' & _ & H). exists r'. exact H.
  - intros f cb _ [r Hf].
    destruct (stage_yields f
                (fun x p => Emit (EvCall (map_id cb) x) (p (map_body cb x)))
                r Hf) as (r' & _ & H).
    { intros x. exists (map_body cb x). apply map_stage_delivers. }
    exists r'. exact H.
  - intros f cb _ [r Hf].
    destruct (stage_yields f
                (fun x p => Emit (EvCall (map_id cb) x) (p (map_body cb x)))
                r Hf) as (r' & _ & H).
    { intros x. exists (map_body cb x). apply map_stage_delivers. }
    exists r'. exact H.
  - intros f _ [r Hf].
    destruct (stage_yields f (fun x p => immediate_executor (p x)) r Hf)
      as (r' & _ & H).
    { intros x. exists x. apply delivers_now. }
    exists r'. exact H.
  - intros f g _ [r1 Hf] _ [r2 Hg]. exists (join_outcome true r1 r2).
    apply (delivers_and (future_done f) (future_done g)); assumption.
  - intros f g _ [r1 Hf] _ [r2 Hg]. exists r1.
    apply (delivers_or (future_done f) (future_done g) r1 r2); assumption.
  - intros f g _ [r1 Hf] _ [r2 Hg]. exists (join_outcome true r1 r2).
    apply (delivers_sequence (future_done f) (future_done g)); assumption.
  - intros v. exists (Success v). apply delivers_now.
  - intros f. exists (Failed f). apply delivers_now.
  - intros coro _ [r H]. exists r. exact H.
Qed.

(** ** Reading traces *)

Lemma exec_trace a w : exists tr, trace (exec a w) = trace w ++ tr.
Proof.
  revert w. induction a as [|e k IH|init k IH|c k IH|c x k IH|work _ k IH];
    intros w; simpl.
  - exists []. symmetry. apply app_nil_r.
  - destruct (IH (World (trace w ++ [e]) (heap w) (pending w))) as [tr E].
    exists (e :: tr). rewrite E. simpl. rewrite <- app_assoc. reflexivity.
  - apply (IH _ (World (trace w) (heap w ++ [init]) (pending w))).
  - apply IH.
  - apply (IH (World (trace w) (<[c:=x]> (heap w)) (pending w))).
  - apply (IH (World (trace w) (heap w) (pending w ++ [work]))).
Qed.

Lemma count_app p tr1 tr2 : count p (tr1 ++ tr2) = count p tr1 + count p tr2.
Proof. unfold count. rewrite filter_app, length_app. reflexivity. Qed.

Lemma count_quiet id tr : quiet tr -> count (is_sink id) tr = 0.
Proof.
  unfold count. induction 1 as [|e tr He _ IH]; [reflexivity|].
  rewrite filter_cons_False; [exact IH|]. rewrite He. discriminate.
Qed.

Lemma count_sink_here id r : count (is_sink id) [EvSink id r] = 1.
Proof.
  unfold count. rewrite filter_cons_True; [reflexivity|].
  simpl. apply Nat.eqb_refl.
Qed.

Lemma new_events_app w tr w' :
  trace w' = trace w ++ tr -> new_events w w' = tr.
Proof.
  intros E. unfold new_events. rewrite E. rewrite drop_app_length. reflexivity.
Qed.

Lemma yields_sink_once f r id w :
  yields f r ->
  (exists tr1 tr2,
     trace (exec (future_done f (sink id)) w)
     = trace w ++ tr1 ++ EvSink id r :: tr2 /\
     quiet tr1 /\ quiet tr2) /\
  count (is_sink id) (trace (exec (future_done f (sink id)) w))
  = S (count (is_sink id) (trace w)) /\
  pending (exec (future_done f (sink id)) w) = pending w.
Proof.
  intros Hy.
  destruct (Hy w) as (w1 & post & A1 & Apost & Heq).
  rewrite (Heq (sink id)) by apply respects_sink.
  destruct A1 as [(tr1 & E1 & Q1) _ _ P1].
  destruct (Apost (exec (sink id r) w1)) as [(tr2 & E2 & Q2) _ _ P2];
    [simpl; lia|].
  simpl in E2, P2.
  assert (E : trace (post (exec (sink id r) w1))
              = trace w ++ tr1 ++ EvSink id r :: tr2).
  { simpl. rewrite E2, E1. rewrite <- !app_assoc. reflexivity. }
  split; [|split].
  - exists tr1, tr2. auto.
  - rewrite E. rewrite !count_app.
    change (EvSink id r :: tr2) with ([EvSink id r] ++ tr2).
    rewrite count_app, count_sink_here.
    rewrite (count_quiet id tr1 Q1), (count_quiet id tr2 Q2). lia.
  - simpl. congruence.
Qed.

(** ** The invariant of an evaluation under any schedule *)

Lemma covers_perm h ls ls' k cs :
  ls ≡ₚ ls' -> covers h ls k cs -> covers h ls' k cs.
Proof.
  intros Hp Hc. revert ls' Hp.
  induction Hc as [k|s k ls cs _ IH|c k l1 l2 ls c1 c2 Hh H1 _ H2 _ Hl Hc1 Hd
                  |c rhs k ls cs Hh _ IH Hc0|c r k ls cs Hh _ IH Hc0
                  |c r k ls cs Hh _ IH Hc0
                  |c k l1 l2 ls c1 c2 Hh H1 _ H2 _ Hl Hc1 Hd];
    intros ls' Hp.
  - apply Permutation_singleton_l in Hp. subst. constructor.
  - apply C_stage with s. apply IH, Hp.
  - apply (C_both h c k l1 l2 ls' c1 c2); auto.
    transitivity ls; [symmetry; exact Hp|exact Hl].
  - apply (C_seq h c rhs k ls' cs); auto.
  - apply (C_lhs_left h c r k ls' cs); auto.
  - apply (C_rhs_left h c r k ls' cs); auto.
  - apply (C_any h c k l1 l2 ls' c1 c2); auto.
    transitivity ls; [symmetry; exact Hp|exact Hl].
Qed.

Lemma covers_size h ls k cs :
  covers h ls k cs -> forall x, x ∈ ls -> kont_size k <= kont_size x.
Proof.
  induction 1 as [k|s k ls cs _ IH|c k l1 l2 ls c1 c2 Hh _ IH1 _ IH2 Hl Hc1 Hd
                 |c rhs k ls cs Hh _ IH Hc0|c r k ls cs Hh _ IH Hc0
                 |c r k ls cs Hh _ IH Hc0
                 |c k l1 l2 ls c1 c2 Hh _ IH1 _ IH2 Hl Hc1 Hd];
    intros x Hx.
  - apply list_elem_of_singleton in Hx. subst. lia.
  - specialize (IH x Hx). simpl in IH. lia.
  - rewrite Hl in Hx. apply elem_of_app in Hx as [Hx|Hx];
      [specialize (IH1 x Hx)|specialize (IH2 x Hx)]; simpl in *; lia.
  - specialize (IH x Hx). simpl in IH. lia.
  - specialize (IH x Hx). simpl in IH. lia.
  - specialize (IH x Hx). simpl in IH. lia.
  - rewrite Hl in Hx. apply elem_of_app in Hx as [Hx|Hx];
      [specialize (IH1 x Hx)|specialize (IH2 x Hx)]; simpl in *; lia.
Qed.

Lemma covers_leaf_size h ls k cs x :
  covers h ls k cs -> x ∈ ls -> kont_size x = kont_size k ->
  ls = [x] /\ x = k /\ cs = ∅.
Proof.
  intros Hc Hx Hs.
  destruct Hc as [k|s k ls cs H|c k l1 l2 ls c1 c2 Hh H1 H2 Hl Hc1 Hd
                 |c rhs k ls cs Hh H Hc0|c r k ls cs Hh H Hc0
                 |c r k ls cs Hh H Hc0
                 |c k l1 l2 ls c1 c2 Hh H1 H2 Hl Hc1 Hd].
  - apply list_elem_of_singleton in Hx. subst. auto.
  - pose proof (covers_size _ _ _ _ H x Hx) as L. simpl in L. lia.
  - rewrite Hl in Hx. apply elem_of_app in Hx as [Hx|Hx];
      [pose proof (covers_size _ _ _ _ H1 x Hx) as L
      |pose proof (covers_size _ _ _ _ H2 x Hx) as L]; simpl in L; lia.
  - pose proof (covers_size _ _ _ _ H x Hx) as L. simpl in L. lia.
  - pose proof (covers_size _ _ _ _ H x Hx) as L. simpl in L. lia.
  - pose proof (covers_size _ _ _ _ H x Hx) as L. simpl in L. lia.
  - rewrite Hl in Hx. apply elem_of_app in Hx as [Hx|Hx];
      [pose proof (covers_size _ _ _ _ H1 x Hx) as L
      |pose proof (covers_size _ _ _ _ H2 x Hx) as L]; simpl in L; lia.
Qed.

Lemma covers_nonempty h ls k cs : covers h ls k cs -> ls <> [].
Proof.
  induction 1 as [k|s k ls cs _ IH|c k l1 l2 ls c1 c2 Hh _ IH1 _ IH2 Hl Hc1 Hd
                 |c rhs k ls cs Hh _ IH Hc0|c r k ls cs Hh _ IH Hc0
                 |c r k ls cs Hh _ IH Hc0
                 |c k l1 l2 ls c1 c2 Hh _ IH1 _ IH2 Hl Hc1 Hd]; auto.
  - intros ->. symmetry in Hl. apply Permutation_nil_r in Hl.
    apply app_eq_nil in Hl as [? ?]. auto.
  - intros ->. symmetry in Hl. apply Permutation_nil_r in Hl.
    apply app_eq_nil in Hl as [? ?]. auto.
Qed.

Lemma covers_agree h h' ls k cs :
  covers h ls k cs -> (forall c, c ∈ cs -> h' !! c = h !! c) ->
  covers h' ls k cs.
Proof.
  induction 1 as [k|s k ls cs _ IH|c k l1 l2 ls c1 c2 Hh _ IH1 _ IH2 Hl Hc1 Hd
                 |c rhs k ls cs Hh _ IH Hc0|c r k ls cs Hh _ IH Hc0
                 |c r k ls cs Hh _ IH Hc0
                 |c k l1 l2 ls c1 c2 Hh _ IH1 _ IH2 Hl Hc1 Hd];
    intros Ha.
  - constructor.
  - apply C_stage with s. apply IH, Ha.
  - eapply C_both; eauto.
    + rewrite Ha by set_solver. exact Hh.
    + apply IH1. intros; apply Ha. set_solver.
    + apply IH2. intros; apply Ha. set_solver.
  - eapply C_seq; eauto.
    + rewrite Ha by set_solver. exact Hh.
    + apply IH. intros; apply Ha. set_solver.
  - eapply C_lhs_left; eauto.
    + rewrite Ha by set_solver. exact Hh.
    + apply IH. intros; apply Ha. set_solver.
  - eapply C_rhs_left; eauto.
    + rewrite Ha by set_solver. exact Hh.
    + apply IH. intros; apply Ha. set_solver.
  - eapply C_any; eauto.
    + rewrite Ha by set_solver. exact Hh.
    + apply IH1. intros; apply Ha. set_solver.
    + apply IH2. intros; apply Ha. set_solver.
Qed.

Lemma covers_cells h ls k cs cs' :
  cs = cs' -> covers h ls k cs -> covers h ls k cs'.
Proof. intros ->. auto. Qed.

Lemma perm_app_split (x : kont) l0 l1 l2 :
  x :: l0 ≡ₚ l1 ++ l2 ->
  (exists l1', l1 ≡ₚ x :: l1' /\ l0 ≡ₚ l1' ++ l2) \/
  (exists l2', l2 ≡ₚ x :: l2' /\ l0 ≡ₚ l1 ++ l2').
Proof.
  intros Hp.
  assert (Hx : x ∈ l1 ++ l2) by (rewrite <- Hp; left).
  apply elem_of_app in Hx as [Hx|Hx];
    apply elem_of_Permutation in Hx as [l' Hl'].
  - left. exists l'. split; [exact Hl'|].
    rewrite Hl' in Hp. simpl in Hp. apply Permutation_cons_inv in Hp. exact Hp.
  - right. exists l'. split; [exact Hl'|].
    rewrite Hl' in Hp. rewrite <- Permutation_middle in Hp.
    apply Permutation_cons_inv in Hp. exact Hp.
Qed.

Lemma covers_subst h ls k cs :
  covers h ls k cs ->
  forall x l0 h' lnew cnew,
    ls ≡ₚ x :: l0 ->
    (forall c, c ∈ cs -> h' !! c = h !! c) ->
    cnew ## cs ->
    covers h' lnew x cnew ->
    covers h' (lnew ++ l0) k (cnew ∪ cs).
Proof.
  induction 1 as [k|s k ls cs _ IH|c k l1 l2 ls c1 c2 Hh H1 IH1 H2 IH2 Hl Hc1 Hd
                 |c rhs k ls cs Hh _ IH Hc0|c r k ls cs Hh _ IH Hc0
                 |c r k ls cs Hh _ IH Hc0
                 |c k l1 l2 ls c1 c2 Hh H1 IH1 H2 IH2 Hl Hc1 Hd];
    intros x l0 h' lnew cnew Hp Ha Hdis Hnew.
  - apply Permutation_singleton_l in Hp. inversion Hp; subst.
    rewrite app_nil_r. eapply covers_cells; [|exact Hnew]. set_solver.
  - apply C_stage with s. eapply IH; eauto.
  - rewrite Hl in Hp. symmetry in Hp.
    apply perm_app_split in Hp as [(l1' & E1 & E0)|(l2' & E2 & E0)].
    + eapply covers_cells;
        [|apply (C_both h' c k (lnew ++ l1') l2 (lnew ++ l0) (cnew ∪ c1) c2)].
      * set_solver.
      * rewrite Ha by set_solver. exact Hh.
      * eapply IH1; eauto; [intros; apply Ha|]; set_solver.
      * eapply covers_agree; [exact H2|]. intros; apply Ha. set_solver.
      * rewrite E0, app_assoc. reflexivity.
      * set_solver.
      * set_solver.
    + eapply covers_cells;
        [|apply (C_both h' c k l1 (lnew ++ l2') (lnew ++ l0) c1 (cnew ∪ c2))].
      * set_solver.
      * rewrite Ha by set_solver. exact Hh.
      * eapply covers_agree; [exact H1|]. intros; apply Ha. set_solver.
      * eapply IH2; eauto; [intros; apply Ha|]; set_solver.
      * rewrite E0, !app_assoc.
        apply Permutation_app_tail, Permutation_app_comm.
      * set_solver.
      * set_solver.
  - eapply covers_cells;
      [|apply (C_seq h' c rhs k (lnew ++ l0) (cnew ∪ cs))].
    + set_solver.
    + rewrite Ha by set_solver. exact Hh.
    + eapply IH; eauto; [intros; apply Ha|]; set_solver.
    + set_solver.
  - eapply covers_cells;
      [|apply (C_lhs_left h' c r k (lnew ++ l0) (cnew ∪ cs))].
    + set_solver.
    + rewrite Ha by set_solver. exact Hh.
    + eapply IH; eauto; [intros; apply Ha|]; set_solver.
    + set_solver.
  - eapply covers_cells;
      [|apply (C_rhs_left h' c r k (lnew ++ l0) (cnew ∪ cs))].
    + set_solver.
    + rewrite Ha by set_solver. exact Hh.
    + eapply IH; eauto; [intros; apply Ha|]; set_solver.
    + set_solver.
  - rewrite Hl in Hp. symmetry in Hp.
    apply perm_app_split in Hp as [(l1' & E1 & E0)|(l2' & E2 & E0)].
    + eapply covers_cells;
        [|apply (C_any h' c k (lnew ++ l1') l2 (lnew ++ l0) (cnew ∪ c1) c2)].
      * set_solver.
      * rewrite Ha by set_solver. exact Hh.
      * eapply IH1; eauto; [intros; apply Ha|]; set_solver.
      * eapply covers_agree; [exact H2|]. intros; apply Ha. set_solver.
      * rewrite E0, app_assoc. reflexivity.
      * set_solver.
      * set_solver.
    + eapply covers_cells;
        [|apply (C_any h' c k l1 (lnew ++ l2') (lnew ++ l0) c1 (cnew ∪ c2))].
      * set_solver.
      * rewrite Ha by set_solver. exact Hh.
      * eapply covers_agree; [exact H1|]. intros; apply Ha. set_solver.
      * eapply IH2; eauto; [intros; apply Ha|]; set_solver.
      * rewrite E0, !app_assoc.
        apply Permutation_app_tail, Permutation_app_comm.
      * set_solver.
      * set_solver.
Qed.

Lemma plugs_here h k : plugs h k k [] ∅.
Proof.
  intros h' lnew cnew _ _ Hc. rewrite app_nil_r.
  eapply covers_cells; [|exact Hc]. set_solver.
Qed.

Lemma covers_locate h ls k cs :
  covers h ls k cs ->
  forall x l0,
    ls ≡ₚ x :: l0 -> kont_size x <> kont_size k ->
    exists p lsib cn lrest crest,
      node_at h x p lsib cn /\
      l0 ≡ₚ lsib ++ lrest /\
      cs = cn ∪ crest /\ cn ## crest /\
      plugs h p k lrest crest.
Proof.
  induction 1 as [k|s k ls cs H IH|c k l1 l2 ls c1 c2 Hh H1 IH1 H2 IH2 Hl Hc1 Hd
                 |c rhs k ls cs Hh H IH Hc0|c r k ls cs Hh H IH Hc0
                 |c r k ls cs Hh H IH Hc0
                 |c k l1 l2 ls c1 c2 Hh H1 IH1 H2 IH2 Hl Hc1 Hd];
    intros x l0 Hp Hne.
  - apply Permutation_singleton_l in Hp. inversion Hp; subst. lia.
  - assert (Hx : x ∈ ls) by (rewrite Hp; left).
    destruct (decide (kont_size x = kont_size (KStage s k))) as [E|E].
    + destruct (covers_leaf_size _ _ _ _ _ H Hx E) as (-> & -> & ->).
      apply Permutation_singleton_l in Hp. inversion Hp; subst.
      exists k, [], ∅, [], ∅. split; [constructor|].
      split; [reflexivity|]. split; [set_solver|]. split; [set_solver|].
      apply plugs_here.
    + destruct (IH x l0 Hp E) as (p & lsib & cn & lrest & crest
                                   & Hn & E0 & Ecs & Hdis & Hplug).
      exists p, lsib, cn, lrest, crest. repeat split; auto.
      intros h' lnew cnew Ha Hd' Hc. apply C_stage with s.
      apply Hplug; auto.
  - rewrite Hl in Hp. symmetry in Hp.
    apply perm_app_split in Hp as [(l1' & E1 & E0)|(l2' & E2 & E0)].
    + assert (Hx : x ∈ l1) by (rewrite E1; left).
      destruct (decide (kont_size x = kont_size (KLhs c k))) as [E|E].
      * destruct (covers_leaf_size _ _ _ _ _ H1 Hx E) as (-> & -> & ->).
        apply Permutation_singleton_l in E1. inversion E1; subst.
        exists k, l2, ({[c]} ∪ c2), [], ∅.
        split; [apply N_both_l; auto; set_solver|].
        split; [rewrite E0, app_nil_r; reflexivity|].
        split; [set_solver|]. split; [set_solver|]. apply plugs_here.
      * destruct (IH1 x l1' E1 E) as (p & lsib & cn & lrest & crest
                                      & Hn & E0' & Ecs & Hdis & Hplug).
        exists p, lsib, cn, (lrest ++ l2), ({[c]} ∪ crest ∪ c2).
        split; [exact Hn|].
        split; [rewrite E0, E0', app_assoc; reflexivity|].
        split; [set_solver|]. split; [set_solver|].
        intros h' lnew cnew Ha Hd' Hc.
        eapply covers_cells;
          [|apply (C_both h' c k (lnew ++ lrest) l2 _ (cnew ∪ crest) c2)].
        -- set_solver.
        -- rewrite Ha by set_solver. exact Hh.
        -- apply Hplug; auto; [intros; apply Ha|]; set_solver.
        -- eapply covers_agree; [exact H2|]. intros; apply Ha. set_solver.
        -- rewrite app_assoc. reflexivity.
        -- set_solver.
        -- set_solver.
    + assert (Hx : x ∈ l2) by (rewrite E2; left).
      destruct (decide (kont_size x = kont_size (KRhs c k))) as [E|E].
      * destruct (covers_leaf_size _ _ _ _ _ H2 Hx E) as (-> & -> & ->).
        apply Permutation_singleton_l in E2. inversion E2; subst.
        exists k, l1, ({[c]} ∪ c1), [], ∅.
        split; [apply N_both_r; auto; set_solver|].
        split; [rewrite E0, !app_nil_r; reflexivity|].
        split; [set_solver|]. split; [set_solver|]. apply plugs_here.
      * destruct (IH2 x l2' E2 E) as (p & lsib & cn & lrest & crest
                                      & Hn & E0' & Ecs & Hdis & Hplug).
        exists p, lsib, cn, (lrest ++ l1), ({[c]} ∪ crest ∪ c1).
        split; [exact Hn|].
        split.
        { rewrite E0, E0'. rewrite (Permutation_app_comm l1).
          rewrite app_assoc. reflexivity. }
        split; [set_solver|]. split; [set_solver|].
        intros h' lnew cnew Ha Hd' Hc.
        eapply covers_cells;
          [|apply (C_both h' c k l1 (lnew ++ lrest) _ c1 (cnew ∪ crest))].
        -- set_solver.
        -- rewrite Ha by set_solver. exact Hh.
        -- eapply covers_agree; [exact H1|]. intros; apply Ha. set_solver.
        -- apply Hplug; auto; [intros; apply Ha|]; set_solver.
        -- rewrite app_assoc. apply Permutation_app_comm.
        -- set_solver.
        -- set_solver.
  - assert (Hx : x ∈ ls) by (rewrite Hp; left).
    destruct (decide (kont_size x = kont_size (KSeq c rhs k))) as [E|E].
    + destruct (covers_leaf_size _ _ _ _ _ H Hx E) as (-> & -> & ->).
      apply Permutation_singleton_l in Hp. inversion Hp; subst.
      exists k, [], {[c]}, [], ∅. split; [apply N_seq; auto|].
      split; [reflexivity|]. split; [set_solver|]. split; [set_solver|].
      apply plugs_here.
    + destruct (IH x l0 Hp E) as (p & lsib & cn & lrest & crest
                                   & Hn & E0 & Ecs & Hdis & Hplug).
      exists p, lsib, cn, lrest, ({[c]} ∪ crest).
      split; [exact Hn|]. split; [exact E0|].
      split; [set_solver|]. split; [set_solver|].
      intros h' lnew cnew Ha Hd' Hc.
      eapply covers_cells;
        [|apply (C_seq h' c rhs k _ (cnew ∪ crest))].
      * set_solver.
      * rewrite Ha by set_solver. exact Hh.
      * apply Hplug; auto; [intros; apply Ha|]; set_solver.
      * set_solver.
  - assert (Hx : x ∈ ls) by (rewrite Hp; left).
    destruct (decide (kont_size x = kont_size (KLhs c k))) as [E|E].
    + destruct (covers_leaf_size _ _ _ _ _ H Hx E) as (-> & -> & ->).
      apply Permutation_singleton_l in Hp. inversion Hp; subst.
      exists k, [], {[c]}, [], ∅. split; [eapply N_lhs_left; eauto|].
      split; [reflexivity|]. split; [set_solver|]. split; [set_solver|].
      apply plugs_here.
    + destruct (IH x l0 Hp E) as (p & lsib & cn & lrest & crest
                                   & Hn & E0 & Ecs & Hdis & Hplug).
      exists p, lsib, cn, lrest, ({[c]} ∪ crest).
      split; [exact Hn|]. split; [exact E0|].
      split; [set_solver|]. split; [set_solver|].
      intros h' lnew cnew Ha Hd' Hc.
      eapply covers_cells;
        [|apply (C_lhs_left h' c r k _ (cnew ∪ crest))].
      * set_solver.
      * rewrite Ha by set_solver. exact Hh.
      * apply Hplug; auto; [intros; apply Ha|]; set_solver.
      * set_solver.
  - assert (Hx : x ∈ ls) by (rewrite Hp; left).
    destruct (decide (kont_size x = kont_size (KRhs c k))) as [E|E].
    + destruct (covers_leaf_size _ _ _ _ _ H Hx E) as (-> & -> & ->).
      apply Permutation_singleton_l in Hp. inversion Hp; subst.
      exists k, [], {[c]}, [], ∅. split; [eapply N_rhs_left; eauto|].
      split; [reflexivity|]. split; [set_solver|]. split; [set_solver|].
      apply plugs_here.
    + destruct (IH x l0 Hp E) as (p & lsib & cn & lrest & crest
                                   & Hn & E0 & Ecs & Hdis & Hplug).
      exists p, lsib, cn, lrest, ({[c]} ∪ crest).
      split; [exact Hn|]. split; [exact E0|].
      split; [set_solver|]. split; [set_solver|].
      intros h' lnew cnew Ha Hd' Hc.
      eapply covers_cells;
        [|apply (C_rhs_left h' c r k _ (cnew ∪ crest))].
      * set_solver.
      * rewrite Ha by set_solver. exact Hh.
      * apply Hplug; auto; [intros; apply Ha|]; set_solver.
      * set_solver.
  - rewrite Hl in Hp. symmetry in Hp.
    apply perm_app_split in Hp as [(l1' & E1 & E0)|(l2' & E2 & E0)].
    + assert (Hx : x ∈ l1) by (rewrite E1; left).
      destruct (decide (kont_size x = kont_size (KAny c k))) as [E|E].
      * destruct (covers_leaf_size _ _ _ _ _ H1 Hx E) as (-> & -> & ->).
        apply Permutation_singleton_l in E1. inversion E1; subst.
        exists k, l2, ({[c]} ∪ c2), [], ∅.
        split; [apply N_any; auto; set_solver|].
        split; [rewrite E0, app_nil_r; reflexivity|].
        split; [set_solver|]. split; [set_solver|]. apply plugs_here.
      * destruct (IH1 x l1' E1 E) as (p & lsib & cn & lrest & crest
                                      & Hn & E0' & Ecs & Hdis & Hplug).
        exists p, lsib, cn, (lrest ++ l2), ({[c]} ∪ crest ∪ c2).
        split; [exact Hn|].
        split; [rewrite E0, E0', app_assoc; reflexivity|].
        split; [set_solver|]. split; [set_solver|].
        intros h' lnew cnew Ha Hd' Hc.
        eapply covers_cells;
          [|apply (C_any h' c k (lnew ++ lrest) l2 _ (cnew ∪ crest) c2)].
        -- set_solver.
        -- rewrite Ha by set_solver. exact Hh.
        -- apply Hplug; auto; [intros; apply Ha|]; set_solver.
        -- eapply covers_agree; [exact H2|]. intros; apply Ha. set_solver.
        -- rewrite app_assoc. reflexivity.
        -- set_solver.
        -- set_solver.
    + assert (Hx : x ∈ l2) by (rewrite E2; left).
      destruct (decide (kont_size x = kont_size (KAny c k))) as [E|E].
      * destruct (covers_leaf_size _ _ _ _ _ H2 Hx E) as (-> & -> & ->).
        apply Permutation_singleton_l in E2. inversion E2; subst.
        exists k, l1, ({[c]} ∪ c1), [], ∅.
        split; [apply N_any; auto; set_solver|].
        split; [rewrite E0, !app_nil_r; reflexivity|].
        split; [set_solver|]. split; [set_solver|]. apply plugs_here.
      * destruct (IH2 x l2' E2 E) as (p & lsib & cn & lrest & crest
                                      & Hn & E0' & Ecs & Hdis & Hplug).
        exists p, lsib, cn, (lrest ++ l1), ({[c]} ∪ crest ∪ c1).
        split; [exact Hn|].
        split.
        { rewrite E0, E0'. rewrite (Permutation_app_comm l1).
          rewrite app_assoc. reflexivity. }
        split; [set_solver|]. split; [set_solver|].
        intros h' lnew cnew Ha Hd' Hc.
        eapply covers_cells;
          [|apply (C_any h' c k l1 (lnew ++ lrest) _ c1 (cnew ∪ crest))].
        -- set_solver.
        -- rewrite Ha by set_solver. exact Hh.
        -- eapply covers_agree; [exact H1|]. intros; apply Ha. set_solver.
        -- apply Hplug; auto; [intros; apply Ha|]; set_solver.
        -- rewrite app_assoc. apply Permutation_app_comm.
        -- set_solver.
        -- set_solver.
Qed.

Lemma forest_cells sid h live ls cs cs' :
  cs = cs' -> forest sid h live ls cs -> forest sid h live ls cs'.
Proof. intros ->. auto. Qed.

Lemma forest_perm sid h live ls ls' cs :
  ls ≡ₚ ls' -> forest sid h live ls cs -> forest sid h live ls' cs.
Proof.
  intros Hp Hf. revert ls' Hp.
  induction Hf as [|l cs ls1 cs1 ls Hc Hf _ Hl Hd
                   |c k l cs live ls1 cs1 ls Hh Hc Hf _ Hl Hn Hd];
    intros ls' Hp.
  - apply Permutation_nil_l in Hp. subst. constructor.
  - apply (forest_live sid h l cs ls1 cs1 ls'); auto.
    transitivity ls; [symmetry; exact Hp|exact Hl].
  - apply (forest_dead sid h c k l cs live ls1 cs1 ls'); auto.
    transitivity ls; [symmetry; exact Hp|exact Hl].
Qed.

Lemma forest_agree sid h h' live ls cs :
  forest sid h live ls cs -> (forall c, c ∈ cs -> h' !! c = h !! c) ->
  forest sid h' live ls cs.
Proof.
  induction 1 as [|l cs ls1 cs1 ls Hc Hf IH Hl Hd
                  |c k l cs live ls1 cs1 ls Hh Hc Hf IH Hl Hn Hd];
    intros Ha.
  - constructor.
  - apply (forest_live sid h' l cs ls1 cs1 ls); auto.
    + eapply covers_agree; [exact Hc|]. intros; apply Ha. set_solver.
    + apply IH. intros; apply Ha. set_solver.
  - apply (forest_dead sid h' c k l cs live ls1 cs1 ls); auto.
    + rewrite Ha by set_solver. exact Hh.
    + eapply covers_agree; [exact Hc|]. intros; apply Ha. set_solver.
    + apply IH. intros; apply Ha. set_solver.
Qed.

Lemma forest_subst sid h live ls cs :
  forest sid h live ls cs ->
  forall x l0, ls ≡ₚ x :: l0 -> forest_plugs sid h live x l0 cs.
Proof.
  induction 1 as [|l cs ls1 cs1 ls Hc Hf IH Hl Hd
                  |c k l cs live ls1 cs1 ls Hh Hc Hf IH Hl Hn Hd];
    intros x l0 Hp h' lnew cnew Ha Hdis Hnew.
  - apply Permutation_nil_l in Hp. discriminate.
  - rewrite Hl in Hp. symmetry in Hp.
    apply perm_app_split in Hp as [(l1' & E1 & E0)|(l2' & E2 & E0)].
    + eapply forest_cells;
        [|apply (forest_live sid h' (lnew ++ l1') (cnew ∪ cs) ls1 cs1)].
      * set_solver.
      * eapply covers_subst; eauto; [intros; apply Ha|]; set_solver.
      * eapply forest_agree; [exact Hf|]. intros; apply Ha. set_solver.
      * rewrite E0, app_assoc. reflexivity.
      * set_solver.
    + eapply forest_cells;
        [|apply (forest_live sid h' l cs (lnew ++ l2') (cnew ∪ cs1))].
      * set_solver.
      * eapply covers_agree; [exact Hc|]. intros; apply Ha. set_solver.
      * eapply IH; eauto; [intros; apply Ha|]; set_solver.
      * rewrite E0, !app_assoc.
        apply Permutation_app_tail, Permutation_app_comm.
      * set_solver.
  - rewrite Hl in Hp. symmetry in Hp.
    apply perm_app_split in Hp as [(l1' & E1 & E0)|(l2' & E2 & E0)].
    + eapply forest_cells;
        [|apply (forest_dead sid h' c k (lnew ++ l1') (cnew ∪ cs) live
                   ls1 cs1)].
      * set_solver.
      * rewrite Ha by set_solver. exact Hh.
      * eapply covers_subst; eauto; [intros; apply Ha|]; set_solver.
      * eapply forest_agree; [exact Hf|]. intros; apply Ha. set_solver.
      * rewrite E0, app_assoc. reflexivity.
      * set_solver.
      * set_solver.
    + eapply forest_cells;
        [|apply (forest_dead sid h' c k l cs live (lnew ++ l2')
                   (cnew ∪ cs1))].
      * set_solver.
      * rewrite Ha by set_solver. exact Hh.
      * eapply covers_agree; [exact Hc|]. intros; apply Ha. set_solver.
      * eapply IH; eauto; [intros; apply Ha|]; set_solver.
      * rewrite E0, !app_assoc.
        apply Permutation_app_tail, Permutation_app_comm.
      * set_solver.
      * set_solver.
Qed.

Lemma forest_locate sid h live ls cs :
  forest sid h live ls cs ->
  forall x l0, ls ≡ₚ x :: l0 -> located sid h live x l0 cs.
Proof.
  induction 1 as [|l cs ls1 cs1 ls Hc Hf IH Hl Hd
                  |c k l cs live ls1 cs1 ls Hh Hc Hf IH Hl Hn Hd];
    intros x l0 Hp.
  - apply Permutation_nil_l in Hp. discriminate.
  - rewrite Hl in Hp. symmetry in Hp.
    apply perm_app_split in Hp as [(l1' & E1 & E0)|(l2' & E2 & E0)].
    + assert (Hx : x ∈ l) by (rewrite E1; left).
      destruct (decide (kont_size x = kont_size (KSink sid))) as [E|E].
      * destruct (covers_leaf_size _ _ _ _ _ Hc Hx E) as (-> & -> & ->).
        apply Permutation_singleton_l in E1. inversion E1; subst.
        apply at_sink; auto.
        eapply forest_cells; [|eapply forest_perm; [|exact Hf]].
        -- set_solver.
        -- rewrite E0. reflexivity.
      * destruct (covers_locate _ _ _ _ Hc x l1' E1 E)
          as (p & lsib & cn & lrest & crest & Hn & E0' & Ecs & Hdis & Hplug).
        apply (at_node sid h true x l0 _ p lsib cn (lrest ++ ls1)
                 (crest ∪ cs1)); auto.
        -- rewrite E0, E0', app_assoc. reflexivity.
        -- set_solver.
        -- set_solver.
        -- intros h' lnew cnew Ha Hd' Hnew.
           eapply forest_cells;
             [|apply (forest_live sid h' (lnew ++ lrest) (cnew ∪ crest)
                        ls1 cs1)].
           ++ set_solver.
           ++ apply Hplug; auto; [intros; apply Ha|]; set_solver.
           ++ eapply forest_agree; [exact Hf|]. intros; apply Ha. set_solver.
           ++ rewrite app_assoc. reflexivity.
           ++ set_solver.
    + destruct (IH x l2' E2)
        as [Ex El Hf'|c' k' cs' Ex Hh' Ecs Hn' Hf'
           |p lsib cn lrest crest Hn E0' Ecs Hdis Hplug].
      * discriminate.
      * apply (at_resolved sid h true x l0 _ c' k' (cs ∪ cs')); auto.
        -- set_solver.
        -- set_solver.
        -- apply (forest_live sid h l cs l2' cs'); auto.
           set_solver.
      * apply (at_node sid h true x l0 _ p lsib cn (lrest ++ l)
                 (crest ∪ cs)); auto.
        -- rewrite E0, E0'. rewrite (Permutation_app_comm l).
           rewrite app_assoc. reflexivity.
        -- set_solver.
        -- set_solver.
        -- intros h' lnew cnew Ha Hd' Hnew.
           eapply forest_cells;
             [|apply (forest_live sid h' l cs (lnew ++ lrest)
                        (cnew ∪ crest))].
           ++ set_solver.
           ++ eapply covers_agree; [exact Hc|]. intros; apply Ha. set_solver.
           ++ apply Hplug; auto; [intros; apply Ha|]; set_solver.
           ++ rewrite app_assoc. apply Permutation_app_comm.
           ++ set_solver.
  - rewrite Hl in Hp. symmetry in Hp.
    apply perm_app_split in Hp as [(l1' & E1 & E0)|(l2' & E2 & E0)].
    + assert (Hx : x ∈ l) by (rewrite E1; left).
      destruct (decide (kont_size x = kont_size (KAny c k))) as [E|E].
      * destruct (covers_leaf_size _ _ _ _ _ Hc Hx E) as (-> & -> & ->).
        apply Permutation_singleton_l in E1. inversion E1; subst.
        apply (at_resolved sid h live _ l0 _ c k cs1); auto.
        -- set_solver.
        -- set_solver.
        -- eapply forest_perm; [|exact Hf]. rewrite E0. reflexivity.
      * destruct (covers_locate _ _ _ _ Hc x l1' E1 E)
          as (p & lsib & cn & lrest & crest & Hn' & E0' & Ecs & Hdis & Hplug).
        apply (at_node sid h live x l0 _ p lsib cn (lrest ++ ls1)
                 ({[c]} ∪ crest ∪ cs1)); auto.
        -- rewrite E0, E0', app_assoc. reflexivity.
        -- set_solver.
        -- set_solver.
        -- intros h' lnew cnew Ha Hd' Hnew.
           eapply forest_cells;
             [|apply (forest_dead sid h' c k (lnew ++ lrest) (cnew ∪ crest)
                        live ls1 cs1)].
           ++ set_solver.
           ++ rewrite Ha by set_solver. exact Hh.
           ++ apply Hplug; auto; [intros; apply Ha|]; set_solver.
           ++ eapply forest_agree; [exact Hf|]. intros; apply Ha. set_solver.
           ++ rewrite app_assoc. reflexivity.
           ++ set_solver.
           ++ set_solver.
    + destruct (IH x l2' E2)
        as [Ex El Hf'|c' k' cs' Ex Hh' Ecs Hn' Hf'
           |p lsib cn lrest crest Hn' E0' Ecs Hdis Hplug].
      * apply at_sink; auto. subst live.
        apply (forest_dead sid h c k l cs false l2' cs1); auto.
      * apply (at_resolved sid h live x l0 _ c' k' ({[c]} ∪ cs ∪ cs'));
          auto.
        -- set_solver.
        -- set_solver.
        -- apply (forest_dead sid h c k l cs live l2' cs'); auto;
             set_solver.
      * apply (at_node sid h live x l0 _ p lsib cn (lrest ++ l)
                 ({[c]} ∪ crest ∪ cs)); auto.
        -- rewrite E0, E0'. rewrite (Permutation_app_comm l).
           rewrite app_assoc. reflexivity.
        -- set_solver.
        -- set_solver.
        -- intros h' lnew cnew Ha Hd' Hnew.
           eapply forest_cells;
             [|apply (forest_dead sid h' c k l cs live (lnew ++ lrest)
                        (cnew ∪ crest))].
           ++ set_solver.
           ++ rewrite Ha by set_solver. exact Hh.
           ++ eapply covers_agree; [exact Hc|]. intros; apply Ha. set_solver.
           ++ apply Hplug; auto; [intros; apply Ha|]; set_solver.
           ++ rewrite app_assoc. apply Permutation_app_comm.
           ++ set_solver.
           ++ set_solver.
Qed.

Section Invariant.
Variables sid base : nat.

Lemma count_nil p : count p [] = 0.
Proof. reflexivity. Qed.

Lemma count_other e :
  is_sink sid e = false -> count (is_sink sid) [e] = 0.
Proof.
  intros He. unfold count. rewrite filter_cons_False; [reflexivity|].
  rewrite He. discriminate.
Qed.

Lemma inv_emit e w live hand :
  is_sink sid e = false ->
  inv sid base w live hand -> inv sid base (log e w) live hand.
Proof.
  intros He (pool & cs & Hp & Hf & Hb & Hok & Hc).
  exists pool, cs. simpl. repeat split; auto.
  rewrite count_app, count_other by exact He. lia.
Qed.

Lemma inv_perm w live hand hand' :
  hand ≡ₚ hand' -> inv sid base w live hand -> inv sid base w live hand'.
Proof.
  intros Hperm (pool & cs & Hp & Hf & Hb & Hok & Hc).
  exists pool, cs. repeat split; auto.
  - eapply forest_perm; [|exact Hf]. rewrite Hperm. reflexivity.
  - rewrite <- Hperm. exact Hok.
Qed.

Lemma inv_post k r w live hand :
  inv sid base w live (k :: hand) ->
  inv sid base (World (trace w) (heap w) (pending w ++ [interp k r]))
      live hand.
Proof.
  intros (pool & cs & Hp & Hf & Hb & Hok & Hc).
  exists (pool ++ [(k, r)]), cs. simpl.
  assert (E : hand ++ (fst <$> (pool ++ [(k, r)]))
              ≡ₚ (k :: hand) ++ (fst <$> pool)).
  { rewrite fmap_app. simpl. rewrite app_assoc.
    rewrite <- Permutation_cons_append. reflexivity. }
  repeat split; auto.
  - rewrite fmap_app, Hp. reflexivity.
  - eapply forest_perm; [|exact Hf]. symmetry. exact E.
  - rewrite E. exact Hok.
Qed.

Lemma inv_pop_stage s k w live hand :
  inv sid base w live (KStage s k :: hand) ->
  stage_ok s /\ inv sid base w live (k :: hand).
Proof.
  intros (pool & cs & Hp & Hf & Hb & Hok & Hc).
  assert (Hks : kont_ok sid (KStage s k)).
  { apply Forall_cons in Hok as [H _]. exact H. }
  destruct Hks as [Hs Hk]. split; [exact Hs|].
  destruct (forest_locate _ _ _ _ _ Hf (KStage s k) (hand ++ (fst <$> pool)))
    as [Ex _ _|c' k' cs' Ex _ _ _ _|p lsib cn lrest crest Hn E0 Ecs Hdis Hplug];
    [reflexivity|discriminate|discriminate|].
  inversion Hn; subst.
  exists pool, crest. repeat split; auto.
  - eapply forest_cells;
      [|eapply forest_perm; [|apply (Hplug (heap w) [p] ∅)]].
    + set_solver.
    + simpl. rewrite E0. reflexivity.
    + auto.
    + set_solver.
    + constructor.
  - intros c Hc'. apply Hb. set_solver.
  - apply Forall_cons in Hok as [_ H]. simpl. apply Forall_cons. auto.
Qed.

Lemma inv_subst k lnew cnew h' w live hand :
  inv sid base w live (k :: hand) ->
  (forall c, c < length (heap w) -> h' !! c = heap w !! c) ->
  length (heap w) <= length h' ->
  (forall cs, (forall c, c ∈ cs -> c < length (heap w)) ->
     cnew ## cs /\ covers h' lnew k cnew /\
     (forall c, c ∈ cnew -> c < length h')) ->
  Forall (kont_ok sid) lnew ->
  inv sid base (World (trace w) h' (pending w)) live (lnew ++ hand).
Proof.
  intros (pool & cs & Hp & Hf & Hb & Hok & Hc) Ha Hlen Hnew Hoknew.
  destruct (Hnew cs Hb) as (Hdis & Hcov & Hbn).
  exists pool, (cnew ∪ cs). simpl. repeat split; auto.
  - rewrite <- app_assoc.
    apply (forest_subst _ _ _ _ _ Hf k (hand ++ (fst <$> pool))); auto.
  - intros c Hc'. apply elem_of_union in Hc' as [H|H]; [auto|].
    specialize (Hb c H). lia.
  - rewrite <- app_assoc. apply Forall_app. split; [exact Hoknew|].
    apply Forall_cons in Hok as [_ H]. exact H.
Qed.

Lemma inv_push s k w live hand :
  stage_ok s ->
  inv sid base w live (k :: hand) ->
  inv sid base w live (KStage s k :: hand).
Proof.
  intros Hs Hi.
  assert (Hk : kont_ok sid k).
  { destruct Hi as (pool & cs & _ & _ & _ & Hok & _).
    apply Forall_cons in Hok as [H _]. exact H. }
  pose proof (inv_subst k [KStage s k] ∅ (heap w) w live hand Hi) as H.
  destruct w as [tr h pe]. simpl in *. apply H; auto.
  - intros cs _. split; [set_solver|]. split; [|set_solver].
    apply C_stage with s. constructor.
  - repeat constructor; auto.
Qed.

Lemma lookup_new (h : list cell) x c :
  c < length h -> (h ++ [x]) !! c = h !! c.
Proof. intros. apply lookup_app_l. assumption. Qed.

Lemma inv_alloc_both k w live hand :
  inv sid base w live (k :: hand) ->
  inv sid base (new_cell (TupleCell None None) w) live
      (KLhs (length (heap w)) k :: KRhs (length (heap w)) k :: hand).
Proof.
  intros Hi.
  assert (Hk : kont_ok sid k).
  { destruct Hi as (pool & cs & _ & _ & _ & Hok & _).
    apply Forall_cons in Hok as [H _]. exact H. }
  apply (inv_subst k [KLhs (length (heap w)) k; KRhs (length (heap w)) k]
           {[length (heap w)]} (heap w ++ [TupleCell None None]) w live hand
           Hi).
  - intros c Hc. apply lookup_new. exact Hc.
  - rewrite length_alloc. lia.
  - intros cs Hb. split; [|split].
    + intros c Hc1 Hc2. apply elem_of_singleton in Hc1. subst.
      specialize (Hb _ Hc2). lia.
    + eapply covers_cells;
        [|apply (C_both _ (length (heap w)) k
                   [KLhs (length (heap w)) k] [KRhs (length (heap w)) k]
                   _ ∅ ∅)];
        try constructor; try set_solver.
      apply lookup_alloc.
    + intros c Hc. apply elem_of_singleton in Hc. subst.
      rewrite length_alloc. lia.
  - repeat constructor; auto.
Qed.

Lemma inv_alloc_any k w live hand :
  inv sid base w live (k :: hand) ->
  inv sid base (new_cell (AnyCell false) w) live
      (KAny (length (heap w)) k :: KAny (length (heap w)) k :: hand).
Proof.
  intros Hi.
  assert (Hk : kont_ok sid k).
  { destruct Hi as (pool & cs & _ & _ & _ & Hok & _).
    apply Forall_cons in Hok as [H _]. exact H. }
  apply (inv_subst k [KAny (length (heap w)) k; KAny (length (heap w)) k]
           {[length (heap w)]} (heap w ++ [AnyCell false]) w live hand Hi).
  - intros c Hc. apply lookup_new. exact Hc.
  - rewrite length_alloc. lia.
  - intros cs Hb. split; [|split].
    + intros c Hc1 Hc2. apply elem_of_singleton in Hc1. subst.
      specialize (Hb _ Hc2). lia.
    + eapply covers_cells;
        [|apply (C_any _ (length (heap w)) k
                   [KAny (length (heap w)) k] [KAny (length (heap w)) k]
                   _ ∅ ∅)];
        try constructor; try set_solver.
      apply lookup_alloc.
    + intros c Hc. apply elem_of_singleton in Hc. subst.
      rewrite length_alloc. lia.
  - repeat constructor; auto.
Qed.

Lemma inv_alloc_seq rhs k w live hand :
  scheduled rhs ->
  inv sid base w live (k :: hand) ->
  inv sid base (new_cell (TupleCell None None) w) live
      (KSeq (length (heap w)) rhs k :: hand).
Proof.
  intros Hr Hi.
  assert (Hk : kont_ok sid k).
  { destruct Hi as (pool & cs & _ & _ & _ & Hok & _).
    apply Forall_cons in Hok as [H _]. exact H. }
  apply (inv_subst k [KSeq (length (heap w)) rhs k]
           {[length (heap w)]} (heap w ++ [TupleCell None None]) w live hand
           Hi).
  - intros c Hc. apply lookup_new. exact Hc.
  - rewrite length_alloc. lia.
  - intros cs Hb. split; [|split].
    + intros c Hc1 Hc2. apply elem_of_singleton in Hc1. subst.
      specialize (Hb _ Hc2). lia.
    + eapply covers_cells;
        [|apply (C_seq _ (length (heap w)) rhs k _ ∅)];
        try constructor; try set_solver.
      apply lookup_alloc.
    + intros c Hc. apply elem_of_singleton in Hc. subst.
      rewrite length_alloc. lia.
  - repeat constructor; auto.
Qed.

End Invariant.

Section Firing.
Variables sid base : nat.

Lemma inv_store k lnew cnew c x w live hand cs crest lrest pool :
  pending w = (task <$> pool) ->
  (forall c', c' ∈ cs -> c' < length (heap w)) ->
  Forall (kont_ok sid) (hand ++ (fst <$> pool)) ->
  count (is_sink sid) (trace w) + (if live : bool then 1 else 0) = S base ->
  forest_plugs sid (heap w) live k lrest crest ->
  hand ++ (fst <$> pool) ≡ₚ lnew ++ lrest ->
  c ∉ crest -> cnew ∪ crest ⊆ cs -> cnew ## crest ->
  covers (<[c:=x]> (heap w)) lnew k cnew ->
  inv sid base (set_cell c x w) live hand.
Proof.
  intros Hp Hb Hok Hc Hplug Hl Hn Hsub Hdis Hcov.
  exists pool, (cnew ∪ crest). simpl. repeat split; auto.
  - eapply forest_perm; [symmetry; exact Hl|].
    apply Hplug; auto.
    intros c' Hc'. apply list_lookup_insert_ne. set_solver.
  - intros c' Hc'. rewrite length_insert. apply Hb. set_solver.
Qed.

Lemma inv_fire_lhs c k r w live hand :
  inv sid base w live (KLhs c k :: hand) ->
  (exists slot, heap w !! c = Some (TupleCell slot None) /\
     inv sid base (set_cell c (TupleCell (Some r) None) w) live hand) \/
  (exists slot r2, heap w !! c = Some (TupleCell slot (Some r2)) /\
     inv sid base (set_cell c (TupleCell (Some r) (Some r2)) w) live
         (k :: hand)).
Proof.
  intros (pool & cs & Hp & Hf & Hb & Hok & Hc).
  assert (Hk : kont_ok sid k).
  { apply Forall_cons in Hok as [H _]. exact H. }
  destruct (forest_locate _ _ _ _ _ Hf (KLhs c k) (hand ++ (fst <$> pool)))
    as [Ex _ _|c' k' cs' Ex _ _ _ _|p lsib cn lrest crest Hn E0 Ecs Hdis Hplug];
    [reflexivity|discriminate|discriminate|].
  inversion Hn as [|c0 p0 lsib0 cs0 Hh Hsib Hc0| | c0 r2 p0 Hh | | |]; subst.
  - left. exists None. split; [exact Hh|].
    apply Forall_cons in Hok as [_ Hok].
    apply (inv_store p lsib ({[c]} ∪ cs0) c _ w live hand
             ({[c]} ∪ cs0 ∪ crest) crest lrest pool);
      auto; try set_solver.
    eapply covers_cells;
      [|apply (C_rhs_left _ c r p lsib cs0)]; auto.
    + apply list_lookup_insert_eq. apply Hb. set_solver.
    + eapply covers_agree; [exact Hsib|].
      intros c' Hc'. apply list_lookup_insert_ne. set_solver.
  - right. exists None, r2. split; [exact Hh|].
    assert (Hi : inv sid base
                   (set_cell c (TupleCell (Some r) (Some r2)) w) live
                   ([p] ++ hand)).
    { exists pool, (∅ ∪ crest). simpl. repeat split; auto.
      - eapply forest_perm;
          [|apply (Hplug (<[c:=TupleCell (Some r) (Some r2)]> (heap w))
                     [p] ∅)].
        + simpl. rewrite E0. reflexivity.
        + intros c' Hc'. apply list_lookup_insert_ne. set_solver.
        + set_solver.
        + constructor.
      - intros c' Hc'. rewrite length_insert. apply Hb. set_solver.
      - apply Forall_cons in Hok as [_ H]. apply Forall_cons. auto. }
    exact Hi.
Qed.

Lemma inv_fire_rhs c k r w live hand :
  inv sid base w live (KRhs c k :: hand) ->
  (exists slot, heap w !! c = Some (TupleCell None slot) /\
     inv sid base (set_cell c (TupleCell None (Some r)) w) live hand) \/
  (exists slot l, heap w !! c = Some (TupleCell (Some l) slot) /\
     inv sid base (set_cell c (TupleCell (Some l) (Some r)) w) live
         (k :: hand)).
Proof.
  intros (pool & cs & Hp & Hf & Hb & Hok & Hc).
  assert (Hk : kont_ok sid k).
  { apply Forall_cons in Hok as [H _]. exact H. }
  destruct (forest_locate _ _ _ _ _ Hf (KRhs c k) (hand ++ (fst <$> pool)))
    as [Ex _ _|c' k' cs' Ex _ _ _ _|p lsib cn lrest crest Hn E0 Ecs Hdis Hplug];
    [reflexivity|discriminate|discriminate|].
  inversion Hn as [| |c0 p0 lsib0 cs0 Hh Hsib Hc0| |c0 r1 p0 Hh | |]; subst.
  - left. exists None. split; [exact Hh|].
    apply Forall_cons in Hok as [_ Hok].
    apply (inv_store p lsib ({[c]} ∪ cs0) c _ w live hand
             ({[c]} ∪ cs0 ∪ crest) crest lrest pool);
      auto; try set_solver.
    eapply covers_cells;
      [|apply (C_lhs_left _ c r p lsib cs0)]; auto.
    + apply list_lookup_insert_eq. apply Hb. set_solver.
    + eapply covers_agree; [exact Hsib|].
      intros c' Hc'. apply list_lookup_insert_ne. set_solver.
  - right. exists None, r1. split; [exact Hh|].
    exists pool, (∅ ∪ crest). simpl. repeat split; auto.
    + eapply forest_perm;
        [|apply (Hplug (<[c:=TupleCell (Some r1) (Some r)]> (heap w))
                   [p] ∅)].
      * simpl. rewrite E0. reflexivity.
      * intros c' Hc'. apply list_lookup_insert_ne. set_solver.
      * set_solver.
      * constructor.
    + intros c' Hc'. rewrite length_insert. apply Hb. set_solver.
    + apply Forall_cons in Hok as [_ H]. apply Forall_cons. auto.
Qed.

Lemma inv_fire_seq c rhs k r w live hand :
  inv sid base w live (KSeq c rhs k :: hand) ->
  scheduled rhs /\
  (exists slot, heap w !! c = Some (TupleCell slot None)) /\
  inv sid base (set_cell c (TupleCell (Some r) None) w) live
      (KRhs c k :: hand).
Proof.
  intros (pool & cs & Hp & Hf & Hb & Hok & Hc).
  assert (Hk : kont_ok sid (KSeq c rhs k)).
  { apply Forall_cons in Hok as [H _]. exact H. }
  destruct Hk as [Hr Hk]. split; [exact Hr|].
  destruct (forest_locate _ _ _ _ _ Hf (KSeq c rhs k) (hand ++ (fst <$> pool)))
    as [Ex _ _|c' k' cs' Ex _ _ _ _|p lsib cn lrest crest Hn E0 Ecs Hdis Hplug];
    [reflexivity|discriminate|discriminate|].
  inversion Hn as [| | | | |c0 rhs0 p0 Hh|]; subst.
  split; [exists None; exact Hh|].
  exists pool, ({[c]} ∪ crest). simpl. repeat split; auto.
  - eapply forest_perm;
      [|apply (Hplug (<[c:=TupleCell (Some r) None]> (heap w))
                 [KRhs c p] {[c]})].
    + simpl. rewrite E0. reflexivity.
    + intros c' Hc'. apply list_lookup_insert_ne. set_solver.
    + set_solver.
    + eapply covers_cells; [|apply (C_rhs_left _ c r p [KRhs c p] ∅)].
      * set_solver.
      * apply list_lookup_insert_eq. apply Hb. set_solver.
      * constructor.
      * set_solver.
  - intros c' Hc'. rewrite length_insert. apply Hb. set_solver.
  - apply Forall_cons in Hok as [_ H]. apply Forall_cons. auto.
Qed.

Lemma inv_fire_any c k w live hand :
  inv sid base w live (KAny c k :: hand) ->
  (heap w !! c = Some (AnyCell true) /\ inv sid base w live hand) \/
  (heap w !! c = Some (AnyCell false) /\
   inv sid base (set_cell c (AnyCell true) w) live (k :: hand)).
Proof.
  intros (pool & cs & Hp & Hf & Hb & Hok & Hc).
  assert (Hk : kont_ok sid k).
  { apply Forall_cons in Hok as [H _]. exact H. }
  destruct (forest_locate _ _ _ _ _ Hf (KAny c k) (hand ++ (fst <$> pool)))
    as [Ex _ _|c' k' cs' Ex Hh Ecs Hn Hf'
       |p lsib cn lrest crest Hn E0 Ecs Hdis Hplug];
    [reflexivity|discriminate| |].
  - inversion Ex; subst. left. split; [exact Hh|].
    exists pool, cs'. repeat split; auto.
    + intros c Hc'. apply Hb. set_solver.
    + apply Forall_cons in Hok as [_ H]. exact H.
  - inversion Hn as [| | | | | |c0 p0 lsib0 cs0 Hh Hsib Hc0]; subst.
    right. split; [exact Hh|].
    exists pool, ({[c]} ∪ cs0 ∪ (∅ ∪ crest)). simpl. repeat split; auto.
    + apply (forest_dead sid _ c p lsib cs0 live (p :: lrest) (∅ ∪ crest)).
      * apply list_lookup_insert_eq. apply Hb. set_solver.
      * eapply covers_agree; [exact Hsib|].
        intros c' Hc'. apply list_lookup_insert_ne. set_solver.
      * apply (Hplug (<[c:=AnyCell true]> (heap w)) [p] ∅).
        -- intros c' Hc'. apply list_lookup_insert_ne. set_solver.
        -- set_solver.
        -- constructor.
      * simpl. rewrite E0. rewrite Permutation_middle. reflexivity.
      * set_solver.
      * set_solver.
    + intros c' Hc'. rewrite length_insert. apply Hb. set_solver.
    + apply Forall_cons in Hok as [_ H]. apply Forall_cons. auto.
Qed.

Lemma inv_fire_sink sid' r w live hand :
  inv sid base w live (KSink sid' :: hand) ->
  sid' = sid /\ inv sid base (log (EvSink sid r) w) false hand.
Proof.
  intros (pool & cs & Hp & Hf & Hb & Hok & Hc).
  assert (Hk : kont_ok sid (KSink sid')).
  { apply Forall_cons in Hok as [H _]. exact H. }
  simpl in Hk. subst sid'. split; [reflexivity|].
  destruct (forest_locate _ _ _ _ _ Hf (KSink sid) (hand ++ (fst <$> pool)))
    as [Ex El Hf'|c' k' cs' Ex _ _ _ _
       |p lsib cn lrest crest Hn E0 Ecs Hdis Hplug];
    [reflexivity| |discriminate|inversion Hn].
  subst live. exists pool, cs. simpl. repeat split; auto.
  - apply Forall_cons in Hok as [_ H]. exact H.
  - rewrite count_app, count_sink_here. lia.
Qed.

End Firing.

Section Evaluation.
Variables sid base : nat.


Lemma fires_sink sid' : fires sid base (KSink sid').
Proof.
  intros r w live hand Hi.
  destruct (inv_fire_sink sid base sid' r w live hand Hi) as [-> H].
  exists false. exact H.
Qed.

Lemma fires_lhs c k : fires sid base k -> fires sid base (KLhs c k).
Proof.
  intros Hk r w live hand Hi. cbn [interp].
  destruct (inv_fire_lhs sid base c k r w live hand Hi)
    as [(slot & Hh & H)|(slot & r2 & Hh & H)].
  - rewrite (exec_assign_lhs_first _ _ _ _ _ Hh). exists live. exact H.
  - rewrite (exec_assign_lhs_second _ _ _ _ _ _ Hh). exact (Hk _ _ _ _ H).
Qed.

Lemma fires_rhs c k : fires sid base k -> fires sid base (KRhs c k).
Proof.
  intros Hk r w live hand Hi. cbn [interp].
  destruct (inv_fire_rhs sid base c k r w live hand Hi)
    as [(slot & Hh & H)|(slot & l & Hh & H)].
  - rewrite (exec_assign_rhs_first _ _ _ _ _ Hh). exists live. exact H.
  - rewrite (exec_assign_rhs_second _ _ _ _ _ _ Hh). exact (Hk _ _ _ _ H).
Qed.

Lemma fires_any c k : fires sid base k -> fires sid base (KAny c k).
Proof.
  intros Hk r w live hand Hi. cbn [interp].
  destruct (inv_fire_any sid base c k w live hand Hi) as [[Hh H]|[Hh H]].
  - rewrite (exec_assign_later _ _ _ _ Hh). exists live. exact H.
  - rewrite (exec_assign_first _ _ _ _ Hh). exact (Hk _ _ _ _ H).
Qed.

Lemma fires_seq c rhs k :
  evals sid base (future_done rhs) (KRhs c k) -> fires sid base (KSeq c rhs k).
Proof.
  intros Hr r w live hand Hi. cbn [interp]. rewrite exec_seq.
  destruct (inv_fire_seq sid base c rhs k r w live hand Hi)
    as (_ & (slot & Hh) & H).
  rewrite (exec_assign_lhs_first _ _ _ _ _ Hh). exact (Hr _ _ _ H).
Qed.

Lemma fires_stage s k :
  (forall x, evals sid base (stage_fun s x) k) -> fires sid base (KStage s k).
Proof.
  intros Hs r w live hand Hi. cbn [interp].
  apply (Hs r w live hand). apply (inv_pop_stage sid base s k w live hand Hi).
Qed.

Lemma evals_now r k : fires sid base k -> evals sid base (fun p => p r) k.
Proof. intros Hk w live hand Hi. exact (Hk _ _ _ _ Hi). Qed.

Lemma evals_emit e run k :
  is_sink sid e = false -> evals sid base run k ->
  evals sid base (fun p => Emit e (run p)) k.
Proof.
  intros He Hr w live hand Hi. simpl.
  apply (Hr _ live hand).
  apply (inv_emit sid base e w live (k :: hand) He Hi).
Qed.

Lemma evals_post r k : evals sid base (fun p => Post (p r) Ret) k.
Proof.
  intros w live hand Hi. simpl. exists live.
  apply inv_post. exact Hi.
Qed.

Lemma evals_stage s run k :
  stage_ok s -> evals sid base run (KStage s k) ->
  evals sid base (fun p => run (fun r => stage_fun s r p)) k.
Proof.
  intros Hs Hr w live hand Hi.
  apply (Hr w live hand). apply inv_push; assumption.
Qed.

Lemma then_stage_evals cb k :
  fires sid base k ->
  (forall v, evals sid base (resolve_promise (then_body cb v)) k) ->
  forall x, evals sid base (stage_fun (SThen cb) x) k.
Proof.
  intros Hk Hcb [v|f]; simpl.
  - apply (evals_emit (EvCall (then_id cb) (Success v))
             (fun p => resolve_promise (then_body cb v) p));
      [reflexivity|apply Hcb].
  - apply evals_now. exact Hk.
Qed.

Lemma then_coro_stage_evals coro k :
  fires sid base k -> evals sid base (future_done coro) k ->
  forall x, evals sid base (stage_fun (SThenCoro coro) x) k.
Proof.
  intros Hk Hc [v|f]; simpl.
  - exact Hc.
  - apply evals_now. exact Hk.
Qed.

Lemma fail_stage_evals cb k :
  fires sid base k ->
  (forall e,
     evals sid base (resolve_promise (result_of_return (fail_body cb e))) k) ->
  forall x, evals sid base (stage_fun (SFail cb) x) k.
Proof.
  intros Hk Hcb [v|f]; simpl.
  - apply evals_now. exact Hk.
  - apply (evals_emit (EvCall (fail_id cb) (Failed f))
             (fun p => resolve_promise
                         (result_of_return (fail_body cb (error f))) p));
      [reflexivity|apply Hcb].
Qed.

Lemma map_stage_evals cb k :
  fires sid base k -> forall x, evals sid base (stage_fun (SMap cb) x) k.
Proof.
  intros Hk x. simpl.
  apply (evals_emit (EvCall (map_id cb) x) (fun p => p (map_body cb x)));
    [reflexivity|apply evals_now; exact Hk].
Qed.

(** Evaluating a pipeline into an outstanding promise keeps the
    invariant. *)
Lemma scheduled_evals f :
  scheduled f -> forall k, fires sid base k -> evals sid base (future_done f) k.
Proof.
  revert f.
  apply (scheduled_mut_ind
           (fun f => forall k,
              fires sid base k -> evals sid base (future_done f) k)
           (fun res => forall k,
              fires sid base k -> evals sid base (resolve_promise res) k)).
  - intros v k Hk. apply (evals_now (Success v)). exact Hk.
  - intros e k Hk. apply (evals_now (Failed (Failure e))). exact Hk.
  - intros id r k Hk.
    apply (evals_emit (EvStart id) (fun p => p r));
      [reflexivity|apply evals_now; exact Hk].
  - intros id r k Hk.
    apply (evals_emit (EvStart id) (fun p => Post (p r) Ret));
      [reflexivity|apply evals_post].
  - intros f cb _ IHf Hcb IHcb k Hk.
    apply (evals_stage (SThen cb) (future_done f) k);
      [constructor; exact Hcb|].
    apply IHf. apply fires_stage. apply then_stage_evals; auto.
  - intros f coro _ IHf Hc IHc k Hk.
    apply (evals_stage (SThenCoro coro) (future_done f) k);
      [constructor; exact Hc|].
    apply IHf. apply fires_stage. apply then_coro_stage_evals; auto.
  - intros f cb _ IHf Hcb IHcb k Hk.
    apply (evals_stage (SFail cb) (future_done f) k);
      [constructor; exact Hcb|].
    apply IHf. apply fires_stage. apply fail_stage_evals; auto.
  - intros f cb _ IHf k Hk.
    apply (evals_stage (SMap cb) (future_done f) k); [constructor|].
    apply IHf. apply fires_stage. apply map_stage_evals; auto.
  - intros f cb _ IHf k Hk.
    apply (evals_stage (SMap cb) (future_done f) k); [constructor|].
    apply IHf. apply fires_stage. apply map_stage_evals; auto.
  - intros f _ IHf k Hk.
    apply (evals_stage (SEnqueue immediate_executor) (future_done f) k);
      [constructor|].
    apply IHf. apply fires_stage. intros x. apply (evals_now x). exact Hk.
  - intros f _ IHf k Hk.
    apply (evals_stage (SEnqueue queue_executor) (future_done f) k);
      [constructor|].
    apply IHf. apply fires_stage. intros x. apply (evals_post x).
  - intros f g _ IHf _ IHg k Hk w live hand Hi.
    change (exec (future_done (future_and f g) (interp k)) w)
      with (exec (seq (future_done f (interp (KLhs (length (heap w)) k)))
                      (future_done g (interp (KRhs (length (heap w)) k))))
                 (new_cell (TupleCell None None) w)).
    rewrite exec_seq.
    destruct (IHf _ (fires_lhs (length (heap w)) k Hk) _ _ _
                (inv_alloc_both sid base k w live hand Hi)) as [live1 H1].
    apply (IHg _ (fires_rhs (length (heap w)) k Hk) _ _ _ H1).
  - intros f g _ IHf _ IHg k Hk w live hand Hi.
    change (exec (future_done (future_or f g) (interp k)) w)
      with (exec (seq (future_done f (interp (KAny (length (heap w)) k)))
                      (future_done g (interp (KAny (length (heap w)) k))))
                 (new_cell (AnyCell false) w)).
    rewrite exec_seq.
    destruct (IHf _ (fires_any (length (heap w)) k Hk) _ _ _
                (inv_alloc_any sid base k w live hand Hi)) as [live1 H1].
    apply (IHg _ (fires_any (length (heap w)) k Hk) _ _ _ H1).
  - intros f g _ IHf Hg IHg k Hk w live hand Hi.
    change (exec (future_done (future_sequence f g) (interp k)) w)
      with (exec (future_done f (interp (KSeq (length (heap w)) g k)))
                 (new_cell (TupleCell None None) w)).
    refine (IHf (KSeq (length (heap w)) g k) _ _ live hand _).
    + apply fires_seq. apply IHg. apply fires_rhs. exact Hk.
    + apply inv_alloc_seq; assumption.
  - intros v k Hk. apply (evals_now (Success v)). exact Hk.
  - intros f k Hk. apply (evals_now (Failed f)). exact Hk.
  - intros coro _ IH k Hk. apply IH. exact Hk.
Qed.

Lemma envelope_evals res k :
  scheduled_envelope res -> fires sid base k ->
  evals sid base (resolve_promise res) k.
Proof.
  intros [v|f|coro Hc] Hk.
  - apply (evals_now (Success v)). exact Hk.
  - apply (evals_now (Failed f)). exact Hk.
  - apply scheduled_evals; assumption.
Qed.

Lemma stage_evals s k :
  stage_ok s -> fires sid base k -> forall x, evals sid base (stage_fun s x) k.
Proof.
  intros [cb Hcb|coro Hc|cb Hcb|cb| |] Hk.
  - apply then_stage_evals; [exact Hk|].
    intros v. apply envelope_evals; auto.
  - apply then_coro_stage_evals; [exact Hk|].
    apply scheduled_evals; assumption.
  - apply fail_stage_evals; [exact Hk|].
    intros e. apply envelope_evals; auto.
  - apply map_stage_evals. exact Hk.
  - intros x. apply (evals_now x). exact Hk.
  - intros x. apply (evals_post x).
Qed.

(** Every promise of a well-formed evaluation keeps the invariant when it
    is invoked. *)
Lemma kont_fires k : kont_ok sid k -> fires sid base k.
Proof.
  induction k as [sid'|s k IH|c k IH|c k IH|c rhs k IH|c k IH]; simpl.
  - intros _. apply fires_sink.
  - intros [Hs Hk]. apply fires_stage. apply stage_evals; auto.
  - intros Hk. apply fires_lhs. auto.
  - intros Hk. apply fires_rhs. auto.
  - intros [Hr Hk]. apply fires_seq. apply scheduled_evals; [exact Hr|].
    apply fires_rhs. auto.
  - intros Hk. apply fires_any. auto.
Qed.

Lemma inv_complete i w live :
  inv sid base w live [] -> exists live', inv sid base (complete i w) live' [].
Proof.
  intros Hi. unfold complete.
  destruct (pending w !! i) as [work|] eqn:Hw; [|exists live; exact Hi].
  destruct Hi as (pool & cs & Hp & Hf & Hb & Hok & Hc).
  rewrite Hp, list_lookup_fmap in Hw.
  destruct (pool !! i) as [[k r]|] eqn:Hpi; [|discriminate].
  simpl in Hw. injection Hw as <-.
  assert (Hperm : fst <$> pool ≡ₚ k :: (fst <$> delete i pool)).
  { rewrite (delete_Permutation pool i (k, r) Hpi) at 1. reflexivity. }
  assert (Hk : fires sid base k).
  { apply kont_fires. simpl in Hok. rewrite Hperm in Hok.
    apply Forall_cons in Hok as [H _]. exact H. }
  apply (Hk r _ live []).
  exists (delete i pool), cs. simpl. repeat split; auto.
  - rewrite Hp. symmetry. apply list_fmap_delete.
  - eapply forest_perm; [|exact Hf]. simpl. exact Hperm.
  - simpl in Hok. rewrite Hperm in Hok. exact Hok.
Qed.

Lemma inv_drain schedule w live :
  inv sid base w live [] ->
  exists live', inv sid base (drain schedule w) live' [].
Proof.
  revert w live. induction schedule as [|i rest IH]; intros w live Hi; simpl.
  - exists live. exact Hi.
  - destruct (inv_complete i w live Hi) as [live1 H1]. apply (IH _ _ H1).
Qed.

Lemma forest_empty h live cs : forest sid h live [] cs -> live = false.
Proof.
  intros Hf.
  inversion Hf as [|l cs0 ls1 cs1 ls Hc _ Hl _
                   |c k l cs0 lv ls1 cs1 ls Hh Hc _ Hl _ _]; subst; auto;
    symmetry in Hl; apply Permutation_nil_r in Hl;
    apply app_eq_nil in Hl as [-> _];
    exfalso; exact (covers_nonempty _ _ _ _ Hc eq_refl).
Qed.

End Evaluation.

Lemma inv_start sid w :
  pending w = [] ->
  inv sid (count (is_sink sid) (trace w)) w true [KSink sid].
Proof.
  intros Hp. exists [], (∅ ∪ ∅). repeat split.
  - exact Hp.
  - apply (forest_live sid (heap w) [KSink sid] ∅ [] ∅).
    + constructor.
    + constructor.
    + reflexivity.
    + set_solver.
  - intros c Hc. set_solver.
  - repeat constructor.
  - lia.
Qed.

Lemma scheduled_sink_once f sid schedule w :
  scheduled f -> pending w = [] ->
  let final := drain schedule (exec (future_done f (sink sid)) w) in
  count (is_sink sid) (trace final) <= S (count (is_sink sid) (trace w)) /\
  (pending final = [] ->
   count (is_sink sid) (trace final) = S (count (is_sink sid) (trace w))).
Proof.
  intros Hf Hp final. subst final.
  pose proof (inv_start sid w Hp) as H0.
  destruct (scheduled_evals sid _ f Hf (KSink sid) (fires_sink sid _ sid)
              w true [] H0) as [live1 H1].
  destruct (inv_drain sid _ schedule _ live1 H1) as [live2 H2].
  change (interp (KSink sid)) with (sink sid) in H2.
  destruct H2 as (pool & cs & Hpool & Hforest & _ & _ & Hc).
  split.
  - destruct live2; lia.
  - intros Hempty. rewrite Hempty in Hpool.
    symmetry in Hpool. apply fmap_nil_inv in Hpool. subst pool.
    simpl in Hforest. apply forest_empty in Hforest. subst live2. lia.
Qed.

(** ** Claims *)

Lemma pipeline_scheduled f : pipeline f -> scheduled f.
Proof.
  revert f.
  apply (pipeline_envelope_ind scheduled scheduled_envelope);
    intros; constructor; auto.
Qed.

(** C1. Single delivery.  For every pipeline terminated with [done(sink)]
    and evaluated, whatever the order in which the outside world completes
    what was left with it: the terminal sink is never handed a second
    outcome, and once nothing is outstanding it has been handed exactly one.
    Pipelines are built from the factory helpers, starters that invoke their
    promise at once or leave it with the outside world, and all combinators,
    executors that run or queue their work, and callbacks free to return
    nested futures.  When no starter or executor defers, this holds for
    every promise the pipeline can be evaluated into ([yields]): the run is
    a prologue, one invocation of the promise, and an epilogue that does not
    depend on the promise. *)
Theorem single_delivery (f : future) (id : nat) (schedule : list nat)
    (w : world) :
  scheduled f -> pending w = [] ->
  let final := drain schedule (exec (future_done f (sink id)) w) in
  count (is_sink id) (trace final) <= S (count (is_sink id) (trace w)) /\
  (pending final = [] ->
   count (is_sink id) (trace final) = S (count (is_sink id) (trace w))) /\
  (pipeline f ->
   exists r,
     yields f r /\
     (exists tr1 tr2,
        trace (exec (future_done f (sink id)) w)
        = trace w ++ tr1 ++ EvSink id r :: tr2 /\
        quiet tr1 /\ quiet tr2) /\
     count (is_sink id) (trace (exec (future_done f (sink id)) w))
     = S (count (is_sink id) (trace w)) /\
     pending (exec (future_done f (sink id)) w) = pending w).
Proof.
  intros Hf Hp final.
  destruct (scheduled_sink_once f id schedule w Hf Hp) as [Hmost Honce].
  split; [exact Hmost|]. split; [exact Honce|].
  intros Hsync. destruct (pipeline_yields f Hsync) as [r Hy]. exists r.
  split; [exact Hy|]. apply yields_sink_once. exact Hy.
Qed.

Lemma single_delivery_witness :
  scheduled deferred_pipeline /\
  pending (drain [1; 0; 0; 0]
             (exec (future_done deferred_pipeline (sink 9)) empty_world))
  = [] /\
  count (is_sink 9)
    (trace (drain [1; 0; 0; 0]
              (exec (future_done deferred_pipeline (sink 9)) empty_world)))
  = S (count (is_sink 9) (trace empty_world)).
Proof.
  assert (H : scheduled deferred_pipeline).
  { unfold deferred_pipeline. repeat constructor. }
  split; [exact H|]. split; [reflexivity|].
  apply (single_delivery deferred_pipeline 9 [1; 0; 0; 0] empty_world H
           eq_refl).
  reflexivity.
Defined.

(** The same shape with starters that do not defer. *)
Example joined_pipeline_trace :
  pipeline joined_pipeline /\
  trace (exec (future_done joined_pipeline (sink 9)) empty_world)
  = [EvStart 0; EvCall 7 (Success (VTuple [VInt 1; VStr "a"]));
     EvSink 9 (Success (VTuple [VInt 1; VStr "a"]))].
Proof. split; [unfold joined_pipeline; repeat constructor|reflexivity]. Qed.

(** The worked pipeline, completed in the order race, join, loser, queue. *)
Example deferred_pipeline_trace :
  trace (drain [1; 0; 0; 0]
           (exec (future_done deferred_pipeline (sink 9)) empty_world))
  = [EvStart 0; EvStart 1; EvStart 2;
     EvCall 7 (Success (VTuple [VInt 1; VStr "a"]));
     EvSink 9 (Success (VTuple [VInt 1; VStr "a"]))].
Proof. reflexivity. Qed.

Lemma envelope_delivers res :
  envelope res -> exists r, delivers (resolve_promise res) r.
Proof.
  intros [v|f|coro Hc].
  - exists (Success v). apply delivers_now.
  - exists (Failed f). apply delivers_now.
  - apply (pipeline_yields coro Hc).
Qed.

Lemma head_new_events a e w :
  head (new_events w (exec a (log e w))) = Some e.
Proof.
  destruct (exec_trace a (log e w)) as [tr E]. simpl in E.
  rewrite (new_events_app w ([e] ++ tr)); [reflexivity|].
  rewrite E, <- app_assoc. reflexivity.
Qed.

Lemma new_events_log e w : new_events w (log e w) = [e].
Proof. apply new_events_app. reflexivity. Qed.

Lemma dispatch_after_delivery (f : future) (r : concrete_result)
    (cb : then_callback) (fcb : fail_callback) (sid : nat) (w : world) :
  yields f r ->
  (forall v, envelope (then_body cb v)) ->
  (forall e, envelope (result_of_return (fail_body fcb e))) ->
  exists w1 post after_then after_fail,
    advances (length (heap w)) w w1 /\
    (forall k, respects (length (heap w)) k ->
       exec (future_done f k) w = post (exec (k r) w1)) /\
    exec (future_done (future_then f cb) (sink sid)) w = post after_then /\
    exec (future_done (future_fail f fcb) (sink sid)) w = post after_fail /\
    match r with
    | Success v =>
        after_then = exec (resolve_promise (then_body cb v) (sink sid))
                          (log (EvCall (then_id cb) r) w1) /\
        after_fail = log (EvSink sid r) w1
    | Failed fl =>
        after_then = log (EvSink sid (Failed fl)) w1 /\
        after_fail =
          exec (resolve_promise (result_of_return (fail_body fcb (error fl)))
                                (sink sid))
               (log (EvCall (fail_id fcb) r) w1)
    end /\
    (head (new_events w1 after_then) = Some (EvCall (then_id cb) r)
     <-> success r = true) /\
    (new_events w1 after_then = [EvSink sid r] <-> success r = false) /\
    (head (new_events w1 after_fail) = Some (EvCall (fail_id fcb) r)
     <-> success r = false) /\
    (new_events w1 after_fail = [EvSink sid r] <-> success r = true).
Proof.
  intros Hf Hcb Hfcb.
  destruct (Hf w) as (w1 & post & A1 & Apost & Heq).
  assert (Hthen : forall x, exists r',
    delivers (fun p =>
      if success x then resolve_promise_with_callback x cb p
      else match get_failure x with
           | Some f => p (Failed f)
           | None => Ret
           end) r').
  { apply then_stage_delivers. intros v. apply envelope_delivers, Hcb. }
  assert (Hfail : forall x, exists r',
    delivers (fun p =>
      if success x then p x
      else match get_failure x with
           | Some f =>
               Emit (EvCall (fail_id fcb) x)
                 (resolve_promise
                    (result_of_return (fail_body fcb (error f))) p)
           | None => Ret
           end) r').
  { apply fail_stage_delivers. intros e. apply envelope_delivers, Hfcb. }
  pose proof (Heq _ (delivers_respects _ _ (sink sid) Hthen
                       (respects_sink _ sid))) as Et.
  pose proof (Heq _ (delivers_respects _ _ (sink sid) Hfail
                       (respects_sink _ sid))) as Ef.
  destruct r as [v|fl]; simpl in Et, Ef.
  - exists w1, post,
      (exec (resolve_promise (then_body cb v) (sink sid))
            (log (EvCall (then_id cb) (Success v)) w1)),
      (log (EvSink sid (Success v)) w1).
    split; [exact A1|]. split; [exact Heq|].
    split; [exact Et|]. split; [exact Ef|]. split; [split; reflexivity|].
    rewrite head_new_events, new_events_log. simpl.
    repeat split; try discriminate; auto.
    destruct (exec_trace (resolve_promise (then_body cb v) (sink sid))
                (log (EvCall (then_id cb) (Success v)) w1)) as [tr E].
    simpl in E. rewrite <- app_assoc in E.
    rewrite (new_events_app _ _ _ E). discriminate.
  - exists w1, post, (log (EvSink sid (Failed fl)) w1),
      (exec (resolve_promise (result_of_return (fail_body fcb (error fl)))
                             (sink sid))
            (log (EvCall (fail_id fcb) (Failed fl)) w1)).
    split; [exact A1|]. split; [exact Heq|].
    split; [exact Et|]. split; [exact Ef|]. split; [split; reflexivity|].
    rewrite head_new_events, new_events_log. simpl.
    repeat split; try discriminate; auto.
    destruct (exec_trace
                (resolve_promise (result_of_return (fail_body fcb (error fl)))
                                 (sink sid))
                (log (EvCall (fail_id fcb) (Failed fl)) w1)) as [tr E].
    simpl in E. rewrite <- app_assoc in E.
    rewrite (new_events_app _ _ _ E). discriminate.
Qed.

(** C2. A [then] stage enters its callback exactly when the inbound result
    is a success, and a [fail] stage exactly when it is a failure.  First
    part: after any upstream that hands one outcome [r] to its stage, the
    callback event of [then] is the first thing that happens when [r] is a
    success, followed by the resolution of the returned envelope, and on a
    failure nothing happens but the same failure being handed to the
    downstream promise; [fail] is the mirror image and forwards a success
    untouched.  Second part: for any upstream, any callbacks and any
    promise, the stage is the only thing put between the upstream and the
    promise, and whenever it is handed [x], at once or later, it does the
    above. *)
Theorem then_fail_dispatch (f : future) (r : concrete_result)
    (cb : then_callback) (fcb : fail_callback) (sid : nat) (w : world) :
  yields f r ->
  (forall v, envelope (then_body cb v)) ->
  (forall e, envelope (result_of_return (fail_body fcb e))) ->
  (exists w1 post after_then after_fail,
    advances (length (heap w)) w w1 /\
    (forall k, respects (length (heap w)) k ->
       exec (future_done f k) w = post (exec (k r) w1)) /\
    exec (future_done (future_then f cb) (sink sid)) w = post after_then /\
    exec (future_done (future_fail f fcb) (sink sid)) w = post after_fail /\
    match r with
    | Success v =>
        after_then = exec (resolve_promise (then_body cb v) (sink sid))
                          (log (EvCall (then_id cb) r) w1) /\
        after_fail = log (EvSink sid r) w1
    | Failed fl =>
        after_then = log (EvSink sid (Failed fl)) w1 /\
        after_fail =
          exec (resolve_promise (result_of_return (fail_body fcb (error fl)))
                                (sink sid))
               (log (EvCall (fail_id fcb) r) w1)
    end /\
    (head (new_events w1 after_then) = Some (EvCall (then_id cb) r)
     <-> success r = true) /\
    (new_events w1 after_then = [EvSink sid r] <-> success r = false) /\
    (head (new_events w1 after_fail) = Some (EvCall (fail_id fcb) r)
     <-> success r = false) /\
    (new_events w1 after_fail = [EvSink sid r] <-> success r = true)) /\
  (forall (upstream : future) (tcb : then_callback) (fb : fail_callback)
          (p : promise) (x : concrete_result) (w' : world),
     future_done (future_then upstream tcb) p
     = future_done upstream (fun x => stage_fun (SThen tcb) x p) /\
     future_done (future_fail upstream fb) p
     = future_done upstream (fun x => stage_fun (SFail fb) x p) /\
     exec (stage_fun (SThen tcb) x p) w'
     = match x with
       | Success v =>
           exec (resolve_promise (then_body tcb v) p)
                (log (EvCall (then_id tcb) x) w')
       | Failed fl => exec (p (Failed fl)) w'
       end /\
     exec (stage_fun (SFail fb) x p) w'
     = match x with
       | Success v => exec (p x) w'
       | Failed fl =>
           exec (resolve_promise
                   (result_of_return (fail_body fb (error fl))) p)
                (log (EvCall (fail_id fb) x) w')
       end).
Proof.
  intros Hf Hcb Hfcb. split.
  - apply dispatch_after_delivery; assumption.
  - intros upstream tcb fb p x w'.
    split; [reflexivity|]. split; [reflexivity|].
    destruct x as [v|fl]; split; reflexivity.
Qed.

Lemma then_fail_dispatch_witness :
  exists w1 post after_then after_fail,
    advances (length (heap empty_world)) empty_world w1 /\
    (forall k, respects (length (heap empty_world)) k ->
       exec (future_done (make_failed_future 5) k) empty_world
       = post (exec (k (Failed (Failure 5))) w1)) /\
    exec (future_done (future_then (make_failed_future 5) echo_callback)
            (sink 9)) empty_world = post after_then /\
    exec (future_done (future_fail (make_failed_future 5) recover_callback)
            (sink 9)) empty_world = post after_fail /\
    (after_then = log (EvSink 9 (Failed (Failure 5))) w1 /\
     after_fail =
       exec (resolve_promise
               (result_of_return (fail_body recover_callback 5%Z)) (sink 9))
            (log (EvCall (fail_id recover_callback) (Failed (Failure 5))) w1))
    /\
    (head (new_events w1 after_then)
     = Some (EvCall (then_id echo_callback) (Failed (Failure 5)))
     <-> success (Failed (Failure 5)) = true) /\
    (new_events w1 after_then = [EvSink 9 (Failed (Failure 5))]
     <-> success (Failed (Failure 5)) = false) /\
    (head (new_events w1 after_fail)
     = Some (EvCall (fail_id recover_callback) (Failed (Failure 5)))
     <-> success (Failed (Failure 5)) = false) /\
    (new_events w1 after_fail = [EvSink 9 (Failed (Failure 5))]
     <-> success (Failed (Failure 5)) = true).
Proof.
  apply (then_fail_dispatch (make_failed_future 5) (Failed (Failure 5))
           echo_callback recover_callback 9 empty_world).
  - apply delivers_now.
  - intros v. constructor.
  - intros e. constructor.
Defined.

Lemma complete_at a rest w before :
  pending w = before ++ a :: rest ->
  complete (length before) w
  = exec a (World (trace w) (heap w) (before ++ rest)).
Proof.
  intros E. unfold complete. rewrite E, list_lookup_middle by reflexivity.
  rewrite delete_middle. reflexivity.
Qed.

(** C3. [then(future<U> coro)]: when the predecessor succeeds, the chain
    taken out of [coro] is evaluated into the downstream promise and the
    predecessor's value plays no part; when the predecessor fails, the
    failure is forwarded and nothing of [coro] runs.  The last two parts hold
    for any [coro] at all, whatever its starter and stages would do: after a
    predecessor that fails at once, and after one that fails only when the
    outside world completes it, the trace holds the failure handed to the
    sink and no event of [coro]. *)
Theorem then_coro_runs_or_cancels (f coro : future)
    (r r0 : concrete_result) (sid : nat) (w : world) :
  yields f r -> yields coro r0 ->
  (exists w1 post,
     advances (length (heap w)) w w1 /\
     (forall k, respects (length (heap w)) k ->
        exec (future_done f k) w = post (exec (k r) w1)) /\
     exec (future_done (future_then_coro f coro) (sink sid)) w
     = post (match r with
             | Success _ => exec (future_done coro (sink sid)) w1
             | Failed fl => log (EvSink sid (Failed fl)) w1
             end)) /\
  (forall (any : future) e,
     exec (future_done (future_then_coro (make_failed_future e) any)
             (sink sid)) w
     = log (EvSink sid (Failed (Failure e))) w) /\
  (forall (any : future) id fl,
     complete (length (pending w))
       (exec (future_done
                (future_then_coro
                   (future_of_starter (deferred_starter id (Failed fl))) any)
                (sink sid)) w)
     = World (trace w ++ [EvStart id; EvSink sid (Failed fl)])
             (heap w) (pending w)).
Proof.
  intros Hf Hc. split; [|split].
  - destruct (Hf w) as (w1 & post & A1 & Apost & Heq).
    exists w1, post. split; [exact A1|]. split; [exact Heq|].
    pose proof (Heq _ (delivers_respects _ _ (sink sid)
                         (then_coro_stage_delivers coro r0 Hc)
                         (respects_sink _ sid))) as E.
    destruct r as [v|fl]; exact E.
  - intros any e. reflexivity.
  - intros any id fl. simpl.
    rewrite (complete_at _ [] _ (pending w)) by reflexivity.
    simpl. rewrite app_nil_r, <- app_assoc. reflexivity.
Qed.

Lemma then_coro_runs_or_cancels_witness :
  (exists w1 post,
     advances (length (heap empty_world)) empty_world w1 /\
     (forall k, respects (length (heap empty_world)) k ->
        exec (future_done (make_failed_future 5) k) empty_world
        = post (exec (k (Failed (Failure 5))) w1)) /\
     exec (future_done
             (future_then_coro (make_failed_future 5)
                (future_of_starter (sync_starter 4 (Success VVoid))))
             (sink 9)) empty_world
     = post (log (EvSink 9 (Failed (Failure 5))) w1)) /\
  (forall (any : future) e,
     exec (future_done (future_then_coro (make_failed_future e) any)
             (sink 9)) empty_world
     = log (EvSink 9 (Failed (Failure e))) empty_world) /\
  (forall (any : future) id fl,
     complete (length (pending empty_world))
       (exec (future_done
                (future_then_coro
                   (future_of_starter (deferred_starter id (Failed fl))) any)
                (sink 9)) empty_world)
     = World (trace empty_world ++ [EvStart id; EvSink 9 (Failed fl)])
             (heap empty_world) (pending empty_world)).
Proof.
  apply (then_coro_runs_or_cancels (make_failed_future 5)
           (future_of_starter (sync_starter 4 (Success VVoid)))
           (Failed (Failure 5)) (Success VVoid) 9 empty_world).
  - apply delivers_now.
  - apply (delivers_emit (EvStart 4) (fun k => k (Success VVoid)));
      [reflexivity|apply delivers_now].
Defined.

(** C4. [operator>>]: the RHS chain is evaluated from inside the sink of the
    LHS chain, after the LHS outcome, success or failure, has been written
    to the LHS slot of the collector.  First part: for operands that hand
    over [r1] and [r2], the RHS runs from the world [w1] in which the LHS
    delivered, with the slot already holding [r1], and the sink then
    receives the joined outcome.  Second part: with an LHS that completes
    only when the outside world says so and any RHS whatsoever, evaluation
    stops after the LHS starter; the RHS is evaluated at the completion of
    the LHS, whatever its outcome [r], into the collector whose LHS slot
    holds [r]. *)
Theorem sequence_serialises (f g : future) (r1 r2 : concrete_result)
    (sid : nat) (w : world) :
  yields f r1 -> yields g r2 ->
  (exists w1 w2 postf postg,
     (forall k, respects (S (length (heap w))) k ->
        exec (future_done f k) (new_cell (TupleCell None None) w)
        = postf (exec (k r1) w1)) /\
     (forall k, respects (length (heap w1)) k ->
        exec (future_done g k)
             (set_cell (length (heap w)) (TupleCell (Some r1) None) w1)
        = postg (exec (k r2) w2)) /\
     exec (future_done (future_sequence f g) (sink sid)) w
     = postf (postg (log (EvSink sid (join_outcome true r1 r2))
                       (set_cell (length (heap w))
                          (TupleCell (Some r1) (Some r2)) w2)))) /\
  (forall (any : future) id r,
     let started :=
       exec (future_done
               (future_sequence (future_of_starter (deferred_starter id r))
                  any) (sink sid)) w in
     trace started = trace w ++ [EvStart id] /\
     heap started = heap w ++ [TupleCell None None] /\
     complete (length (pending w)) started
     = exec (future_done any
               (fun r' => assign_rhs
                            (TupleResult (length (heap w)) (sink sid)) r'))
            (World (trace w ++ [EvStart id])
                   (heap w ++ [TupleCell (Some r) None]) (pending w))).
Proof.
  intros Hf Hg. split.
  - set (c := length (heap w)).
    set (wa := new_cell (TupleCell None None) w).
    assert (La : length (heap wa) = S c) by apply length_alloc.
    destruct (Hf wa) as (w1 & postf & A1 & Apf & Ef).
    set (w1' := set_cell c (TupleCell (Some r1) None) w1).
    assert (L1 : S c <= length (heap w1)) by (destruct A1; lia).
    assert (L1' : length (heap w1') = length (heap w1)).
    { simpl. apply length_insert. }
    destruct (Hg w1') as (w2 & postg & A2 & Apg & Eg).
    assert (Hread1 : heap w1 !! c = Some (TupleCell None None)).
    { destruct A1 as [_ _ C _]. rewrite C by lia. apply lookup_alloc. }
    assert (Hread2 : heap w2 !! c = Some (TupleCell (Some r1) None)).
    { destruct A2 as [_ _ C _]. rewrite C by lia. simpl.
      apply list_lookup_insert_eq. lia. }
    exists w1, w2, postf, postg. split; [|split].
    + intros k Hk. apply Ef. rewrite La. exact Hk.
    + intros k Hk. apply Eg. rewrite L1'. exact Hk.
    + change (exec (future_done (future_sequence f g) (sink sid)) w)
        with (exec (make_tuple_result (sink sid) (fun b =>
                future_done f (fun r =>
                  seq (assign_lhs b r)
                      (future_done g (fun r' => assign_rhs b r'))))) w).
      rewrite exec_make_tuple_result. fold c.
      change (World (trace w) (heap w ++ [TupleCell None None]) (pending w))
        with wa.
      rewrite Ef.
      * rewrite exec_seq, (exec_assign_lhs_first _ _ _ _ _ Hread1).
        change (World (trace w1)
                  (<[c:=TupleCell (Some r1) None]> (heap w1)) (pending w1))
          with w1'.
        rewrite Eg by (apply respects_assign_rhs;
                       [apply respects_sink|lia]).
        rewrite (exec_assign_rhs_second _ _ _ _ _ _ Hread2). reflexivity.
      * apply (respects_seq _
                 (fun r => assign_lhs (TupleResult c (sink sid)) r)
                 (fun _ => future_done g
                    (fun r' => assign_rhs (TupleResult c (sink sid)) r'))).
        -- apply respects_assign_lhs; [apply respects_sink|lia].
        -- eapply run_respects; [exact Hg|].
           apply respects_assign_rhs; [apply respects_sink|lia].
  - intros any id r started. subst started.
    change (exec (future_done
                    (future_sequence
                       (future_of_starter (deferred_starter id r)) any)
                    (sink sid)) w)
      with (World (trace w ++ [EvStart id])
                  (heap w ++ [TupleCell None None])
                  (pending w ++
                     [seq (assign_lhs
                             (TupleResult (length (heap w)) (sink sid)) r)
                          (future_done any
                             (fun r' => assign_rhs
                                (TupleResult (length (heap w)) (sink sid))
                                r'))])).
    split; [reflexivity|]. split; [reflexivity|].
    rewrite (complete_at _ [] _ (pending w)) by reflexivity.
    cbn [trace heap pending]. rewrite app_nil_r, exec_seq.
    rewrite (exec_assign_lhs_first _ _ _ _ None).
    + cbn [trace heap pending]. f_equal. f_equal.
      rewrite <- (Nat.add_0_r (length (heap w))).
      rewrite insert_app_r. reflexivity.
    + cbn [heap]. apply lookup_alloc.
Qed.

Lemma sequence_serialises_witness :
  (exists w1 w2 postf postg,
     (forall k, respects (S (length (heap empty_world))) k ->
        exec (future_done (make_failed_future 9) k)
             (new_cell (TupleCell None None) empty_world)
        = postf (exec (k (Failed (Failure 9))) w1)) /\
     (forall k, respects (length (heap w1)) k ->
        exec (future_done
                (future_of_starter (sync_starter 2 (Success (VInt 2)))) k)
             (set_cell (length (heap empty_world))
                (TupleCell (Some (Failed (Failure 9))) None) w1)
        = postg (exec (k (Success (VInt 2))) w2)) /\
     exec (future_done
             (future_sequence (make_failed_future 9)
                (future_of_starter (sync_starter 2 (Success (VInt 2)))))
             (sink 0)) empty_world
     = postf (postg (log (EvSink 0 (join_outcome true (Failed (Failure 9))
                                      (Success (VInt 2))))
                       (set_cell (length (heap empty_world))
                          (TupleCell (Some (Failed (Failure 9)))
                                     (Some (Success (VInt 2)))) w2)))) /\
  (forall (any : future) id r,
     let started :=
       exec (future_done
               (future_sequence (future_of_starter (deferred_starter id r))
                  any) (sink 0)) empty_world in
     trace started = trace empty_world ++ [EvStart id] /\
     heap started = heap empty_world ++ [TupleCell None None] /\
     complete (length (pending empty_world)) started
     = exec (future_done any
               (fun r' => assign_rhs
                            (TupleResult (length (heap empty_world)) (sink 0))
                            r'))
            (World (trace empty_world ++ [EvStart id])
                   (heap empty_world ++ [TupleCell (Some r) None])
                   (pending empty_world))).
Proof.
  apply (sequence_serialises (make_failed_future 9)
           (future_of_starter (sync_starter 2 (Success (VInt 2))))
           (Failed (Failure 9)) (Success (VInt 2)) 0 empty_world).
  - apply delivers_now.
  - apply (delivers_emit (EvStart 2) (fun k => k (Success (VInt 2))));
      [reflexivity|apply delivers_now].
Defined.

(** Scenario S5: the RHS starter runs although the LHS failed, and the sink
    receives the LHS failure. *)
Example sequence_after_failure :
  exec (future_done
          (future_sequence (make_failed_future 9)
             (future_of_starter (sync_starter 2 (Success (VInt 2)))))
          (sink 0)) empty_world
  = World [EvStart 2; EvSink 0 (Failed (Failure 9))]
          [TupleCell (Some (Failed (Failure 9))) (Some (Success (VInt 2)))]
          [].
Proof. reflexivity. Qed.

(** ** Two operands that complete when the outside world says so *)

Lemma insert_alloc (h : list cell) x y : <[length h:=y]> (h ++ [x]) = h ++ [y].
Proof.
  rewrite <- (Nat.add_0_r (length h)). rewrite insert_app_r. reflexivity.
Qed.

Lemma complete_first a b w0 tr h :
  complete (length (pending w0)) (World tr h (pending w0 ++ [a; b]))
  = exec a (World tr h (pending w0 ++ [b])).
Proof.
  apply (complete_at a [b] (World tr h (pending w0 ++ [a; b])) (pending w0)).
  reflexivity.
Qed.

Lemma complete_second a b w0 tr h :
  complete (S (length (pending w0))) (World tr h (pending w0 ++ [a; b]))
  = exec b (World tr h (pending w0 ++ [a])).
Proof.
  replace (S (length (pending w0))) with (length (pending w0 ++ [a])).
  - rewrite (complete_at b [] (World tr h (pending w0 ++ [a; b]))
               (pending w0 ++ [a])).
    + rewrite app_nil_r. reflexivity.
    + simpl. rewrite <- app_assoc. reflexivity.
  - rewrite length_app. simpl. lia.
Qed.

Lemma complete_only a w0 tr h :
  complete (length (pending w0)) (World tr h (pending w0 ++ [a]))
  = exec a (World tr h (pending w0)).
Proof.
  rewrite (complete_at a [] (World tr h (pending w0 ++ [a])) (pending w0))
    by reflexivity.
  rewrite app_nil_r. reflexivity.
Qed.

Lemma and_deferred_started i j r1 r2 p w :
  exec (future_done
          (future_and (future_of_starter (deferred_starter i r1))
                      (future_of_starter (deferred_starter j r2))) p) w
  = World (trace w ++ [EvStart i; EvStart j])
          (heap w ++ [TupleCell None None])
          (pending w ++ [assign_lhs (TupleResult (length (heap w)) p) r1;
                         assign_rhs (TupleResult (length (heap w)) p) r2]).
Proof. simpl. rewrite <- !app_assoc. reflexivity. Qed.

Lemma or_deferred_started i j r1 r2 p w :
  exec (future_done
          (future_or (future_of_starter (deferred_starter i r1))
                     (future_of_starter (deferred_starter j r2))) p) w
  = World (trace w ++ [EvStart i; EvStart j])
          (heap w ++ [AnyCell false])
          (pending w ++ [assign (AnyResult (length (heap w)) p) r1;
                         assign (AnyResult (length (heap w)) p) r2]).
Proof. simpl. rewrite <- !app_assoc. reflexivity. Qed.

Lemma join_outcome_table lhs_first a b fa fb :
  join_outcome lhs_first (Success a) (Success b)
  = Success (VTuple (components a ++ components b)) /\
  join_outcome lhs_first (Failed fa) (Success b) = Failed fa /\
  join_outcome lhs_first (Success a) (Failed fb) = Failed fb /\
  join_outcome true (Failed fa) (Failed fb) = Failed fa /\
  join_outcome false (Failed fa) (Failed fb) = Failed fb.
Proof. repeat split. Qed.

(** C5. [operator&&].  First part, operands that hand over [r1] and [r2]
    before returning: the LHS chain runs first, from the freshly allocated
    collector; the RHS chain runs next, from the world in which the LHS
    outcome sits in its slot; the downstream promise then fires once with
    the joined outcome.  Second part, operands [a] and [b] that complete
    when the outside world says so: both starters are entered at evaluation
    start, LHS first; after one completion, whichever it is, the sink has
    seen nothing; after both, it has seen exactly one outcome, the join in
    which the side that completed first wins a double failure.  Third part:
    the joined outcome is the merged tuple with the LHS components first
    when both succeed, the failure when exactly one fails, and the failure
    of the first to report when both fail. *)
Theorem join_waits_for_both (f g : future) (r1 r2 : concrete_result)
    (sid : nat) (w : world) :
  yields f r1 -> yields g r2 ->
  (yields (future_and f g) (join_outcome true r1 r2) /\
   count (is_sink sid)
     (trace (exec (future_done (future_and f g) (sink sid)) w))
   = S (count (is_sink sid) (trace w)) /\
   exists w1 w2 postf postg,
     (forall k, respects (S (length (heap w))) k ->
        exec (future_done f k) (new_cell (TupleCell None None) w)
        = postf (exec (k r1) w1)) /\
     (forall k,
        respects (length (heap (postf (set_cell (length (heap w))
                                   (TupleCell (Some r1) None) w1)))) k ->
        exec (future_done g k)
             (postf (set_cell (length (heap w))
                       (TupleCell (Some r1) None) w1))
        = postg (exec (k r2) w2)) /\
     exec (future_done (future_and f g) (sink sid)) w
     = postg (log (EvSink sid (join_outcome true r1 r2))
                (set_cell (length (heap w))
                   (TupleCell (Some r1) (Some r2)) w2))) /\
  (forall i j a b,
     let started :=
       exec (future_done
               (future_and (future_of_starter (deferred_starter i a))
                           (future_of_starter (deferred_starter j b)))
               (sink sid)) w in
     let n := length (pending w) in
     new_events w started = [EvStart i; EvStart j] /\
     length (pending started) = S (S n) /\
     new_events w (complete n started) = [EvStart i; EvStart j] /\
     new_events w (complete (S n) started) = [EvStart i; EvStart j] /\
     new_events w (complete n (complete n started))
     = [EvStart i; EvStart j; EvSink sid (join_outcome true a b)] /\
     new_events w (complete n (complete (S n) started))
     = [EvStart i; EvStart j; EvSink sid (join_outcome false a b)] /\
     pending (complete n (complete n started)) = pending w /\
     pending (complete n (complete (S n) started)) = pending w) /\
  (forall lhs_first a b fa fb,
     join_outcome lhs_first (Success a) (Success b)
     = Success (VTuple (components a ++ components b)) /\
     join_outcome lhs_first (Failed fa) (Success b) = Failed fa /\
     join_outcome lhs_first (Success a) (Failed fb) = Failed fb /\
     join_outcome true (Failed fa) (Failed fb) = Failed fa /\
     join_outcome false (Failed fa) (Failed fb) = Failed fb).
Proof.
  intros Hf Hg.
  assert (Hy : yields (future_and f g) (join_outcome true r1 r2)).
  { apply (delivers_and (future_done f) (future_done g)); assumption. }
  split; [|split].
  - split; [exact Hy|]. split; [apply (yields_sink_once _ _ sid w Hy)|].
    set (c := length (heap w)).
    set (wa := new_cell (TupleCell None None) w).
    assert (La : length (heap wa) = S c) by apply length_alloc.
    destruct (Hf wa) as (w1 & postf & A1 & Apf & Ef).
    set (w1' := set_cell c (TupleCell (Some r1) None) w1).
    assert (L1 : S c <= length (heap w1)) by (destruct A1; lia).
    assert (B1 : advances (length (heap wa)) w1' (postf w1')).
    { apply Apf. simpl. rewrite length_insert. lia. }
    destruct (Hg (postf w1')) as (w2 & postg & A2 & Apg & Eg).
    assert (L2 : S c <= length (heap (postf w1'))).
    { destruct B1 as [_ L _ _]. simpl in L. rewrite length_insert in L. lia. }
    assert (Hread1 : heap w1 !! c = Some (TupleCell None None)).
    { destruct A1 as [_ _ C _]. rewrite C by lia. apply lookup_alloc. }
    assert (Hread2 : heap w2 !! c = Some (TupleCell (Some r1) None)).
    { destruct A2 as [_ _ C _]. rewrite C by lia.
      destruct B1 as [_ _ C' _]. rewrite C' by lia. simpl.
      apply list_lookup_insert_eq. lia. }
    exists w1, w2, postf, postg. split; [|split].
    + intros k Hk. apply Ef. rewrite La. exact Hk.
    + exact Eg.
    + change (exec (future_done (future_and f g) (sink sid)) w)
        with (exec (make_tuple_result (sink sid) (fun b =>
                seq (future_done f (fun r => assign_lhs b r))
                    (future_done g (fun r => assign_rhs b r)))) w).
      rewrite exec_make_tuple_result. fold c.
      change (World (trace w) (heap w ++ [TupleCell None None]) (pending w))
        with wa.
      rewrite exec_seq.
      rewrite Ef by (apply respects_assign_lhs; [apply respects_sink|lia]).
      rewrite (exec_assign_lhs_first _ _ _ _ _ Hread1).
      change (World (trace w1)
                (<[c:=TupleCell (Some r1) None]> (heap w1)) (pending w1))
        with w1'.
      rewrite Eg by (apply respects_assign_rhs; [apply respects_sink|lia]).
      rewrite (exec_assign_rhs_second _ _ _ _ _ _ Hread2). reflexivity.
  - intros i j a b started n. subst started n.
    rewrite and_deferred_started.
    rewrite complete_first, complete_second.
    rewrite (exec_assign_lhs_first _ _ _ _ None) by apply lookup_alloc.
    rewrite (exec_assign_rhs_first _ _ _ _ None) by apply lookup_alloc.
    cbn [trace heap pending]. rewrite !insert_alloc.
    rewrite !complete_only.
    rewrite (exec_assign_rhs_second _ _ _ a _ None) by apply lookup_alloc.
    rewrite (exec_assign_lhs_second _ _ _ b _ None) by apply lookup_alloc.
    cbn [trace heap pending exec sink]. 
    repeat split;
      try (apply new_events_app; cbn [trace];
           rewrite <- ?app_assoc; reflexivity).
    rewrite length_app. simpl. lia.
  - intros lhs_first a b fa fb. apply join_outcome_table.
Qed.

Lemma join_waits_for_both_witness :
  yields (future_and (make_successful_future (VInt 1))
                     (make_successful_future (VStr "a")))
         (join_outcome true (Success (VInt 1)) (Success (VStr "a"))) /\
  count (is_sink 0)
    (trace (exec (future_done
                    (future_and (make_successful_future (VInt 1))
                                (make_successful_future (VStr "a")))
                    (sink 0)) empty_world))
  = S (count (is_sink 0) (trace empty_world)).
Proof.
  destruct (join_waits_for_both (make_successful_future (VInt 1))
              (make_successful_future (VStr "a"))
              (Success (VInt 1)) (Success (VStr "a")) 0 empty_world)
    as [[Hy [Hc _]] _].
  - apply delivers_now.
  - apply delivers_now.
  - split; [exact Hy|exact Hc].
Defined.

(** Scenario S3. *)
Example join_of_two_values :
  trace (exec (future_done
                 (future_and (make_successful_future (VInt 1))
                             (make_successful_future (VStr "a")))
                 (sink 0)) empty_world)
  = [EvSink 0 (Success (VTuple [VInt 1; VStr "a"]))].
Proof. reflexivity. Qed.

(** C6. [operator||].  First part, operands that hand over [r1] and [r2]
    before returning: the downstream promise is invoked exactly once, with
    the LHS outcome [r1].  Second part, operands [a] and [b] that complete
    when the outside world says so: the sink sees nothing until a
    completion, then exactly the outcome of the side that completed first,
    success or failure alike, and the later completion adds nothing. *)
Theorem race_first_wins (f g : future) (r1 r2 : concrete_result)
    (sid : nat) (w : world) :
  yields f r1 -> yields g r2 ->
  (yields (future_or f g) r1 /\
   (exists tr1 tr2,
      trace (exec (future_done (future_or f g) (sink sid)) w)
      = trace w ++ tr1 ++ EvSink sid r1 :: tr2 /\
      quiet tr1 /\ quiet tr2) /\
   count (is_sink sid)
     (trace (exec (future_done (future_or f g) (sink sid)) w))
   = S (count (is_sink sid) (trace w))) /\
  (forall i j a b,
     let started :=
       exec (future_done
               (future_or (future_of_starter (deferred_starter i a))
                          (future_of_starter (deferred_starter j b)))
               (sink sid)) w in
     let n := length (pending w) in
     new_events w started = [EvStart i; EvStart j] /\
     new_events w (complete n started)
     = [EvStart i; EvStart j; EvSink sid a] /\
     new_events w (complete n (complete n started))
     = [EvStart i; EvStart j; EvSink sid a] /\
     new_events w (complete (S n) started)
     = [EvStart i; EvStart j; EvSink sid b] /\
     new_events w (complete n (complete (S n) started))
     = [EvStart i; EvStart j; EvSink sid b] /\
     pending (complete n (complete n started)) = pending w /\
     pending (complete n (complete (S n) started)) = pending w).
Proof.
  intros Hf Hg.
  assert (Hy : yields (future_or f g) r1).
  { apply (delivers_or (future_done f) (future_done g) r1 r2); assumption. }
  split.
  - split; [exact Hy|].
    destruct (yields_sink_once _ _ sid w Hy) as (Ht & Hc & _). auto.
  - intros i j a b started n. subst started n.
    rewrite or_deferred_started.
    rewrite complete_first, complete_second.
    rewrite !exec_assign_first by apply lookup_alloc.
    cbn [trace heap pending exec sink]. rewrite !insert_alloc.
    rewrite !complete_only.
    rewrite !exec_assign_later by apply lookup_alloc.
    cbn [trace heap pending].
    repeat split;
      try (apply new_events_app; cbn [trace];
           rewrite <- ?app_assoc; reflexivity).
Qed.

Lemma race_first_wins_witness :
  yields (future_or (make_successful_future (VInt 1)) (make_failed_future 2))
         (Success (VInt 1)) /\
  count (is_sink 0)
    (trace (exec (future_done
                    (future_or (make_successful_future (VInt 1))
                               (make_failed_future 2))
                    (sink 0)) empty_world))
  = S (count (is_sink 0) (trace empty_world)).
Proof.
  destruct (race_first_wins (make_successful_future (VInt 1))
              (make_failed_future 2)
              (Success (VInt 1)) (Failed (Failure 2)) 0 empty_world)
    as [[Hy [_ Hc]] _].
  - apply delivers_now.
  - apply delivers_now.
  - split; [exact Hy|exact Hc].
Defined.

(** Scenario S4 with both starters completing before they return. *)
Example race_of_value_and_failure :
  trace (exec (future_done
                 (future_or (make_successful_future (VInt 1))
                            (make_failed_future 2))
                 (sink 0)) empty_world)
  = [EvSink 0 (Success (VInt 1))].
Proof. reflexivity. Qed.

Lemma or_mapped_deferred_started i j a b hl hr p w :
  exec (future_done
          (future_or
             (future_map (future_of_starter (deferred_starter i a)) hl)
             (future_map (future_of_starter (deferred_starter j b)) hr)) p) w
  = World (trace w ++ [EvStart i; EvStart j])
          (heap w ++ [AnyCell false])
          (pending w ++
             [Emit (EvCall (map_id hl) a)
                (assign (AnyResult (length (heap w)) p) (map_body hl a));
              Emit (EvCall (map_id hr) b)
                (assign (AnyResult (length (heap w)) p) (map_body hr b))]).
Proof. simpl. rewrite <- !app_assoc. reflexivity. Qed.

(** C10. [operator||] does not cancel the loser.  First part, operands that
    hand over [r1] and [r2] before returning: once the LHS outcome has been
    handed to the sink, the RHS chain is still evaluated in full, exactly as
    if it were evaluated into a promise that ignores what it is given.
    Second part, operands that complete when the outside world says so,
    each followed by a [map] stage: both starters are entered at evaluation
    start, LHS first; whichever side completes second still runs its stage
    callback after the sink has been served, and the sink sees nothing
    more. *)
Theorem race_loser_still_runs (f g : future) (r1 r2 : concrete_result)
    (sid : nat) (w : world) :
  yields f r1 -> yields g r2 ->
  (exists w1 postf,
     (forall k, respects (S (length (heap w))) k ->
        exec (future_done f k) (new_cell (AnyCell false) w)
        = postf (exec (k r1) w1)) /\
     exec (future_done (future_or f g) (sink sid)) w
     = exec (future_done g (fun _ => Ret))
            (postf (log (EvSink sid r1)
                      (set_cell (length (heap w)) (AnyCell true) w1)))) /\
  (forall i j a b hl hr,
     let started :=
       exec (future_done
               (future_or
                  (future_map (future_of_starter (deferred_starter i a)) hl)
                  (future_map (future_of_starter (deferred_starter j b)) hr))
               (sink sid)) w in
     let n := length (pending w) in
     new_events w started = [EvStart i; EvStart j] /\
     new_events w (complete n (complete n started))
     = [EvStart i; EvStart j;
        EvCall (map_id hl) a; EvSink sid (map_body hl a);
        EvCall (map_id hr) b] /\
     new_events w (complete n (complete (S n) started))
     = [EvStart i; EvStart j;
        EvCall (map_id hr) b; EvSink sid (map_body hr b);
        EvCall (map_id hl) a]).
Proof.
  intros Hf Hg. split.
  - set (c := length (heap w)).
    set (wa := new_cell (AnyCell false) w).
    assert (La : length (heap wa) = S c) by apply length_alloc.
    destruct (Hf wa) as (w1 & postf & A1 & Apf & Ef).
    set (w1' := set_cell c (AnyCell true) w1).
    assert (L1 : S c <= length (heap w1)) by (destruct A1; lia).
    assert (Hread1 : heap w1 !! c = Some (AnyCell false)).
    { destruct A1 as [_ _ C _]. rewrite C by lia. apply lookup_alloc. }
    exists w1, postf. split.
    + intros k Hk. apply Ef. rewrite La. exact Hk.
    + change (exec (future_done (future_or f g) (sink sid)) w)
        with (exec (make_any_result (sink sid) (fun b =>
                seq (future_done f (fun r => assign b r))
                    (future_done g (fun r => assign b r)))) w).
      rewrite exec_make_any_result. fold c.
      change (World (trace w) (heap w ++ [AnyCell false]) (pending w))
        with wa.
      rewrite exec_seq.
      rewrite Ef by (apply respects_assign; [apply respects_sink|lia]).
      rewrite (exec_assign_first _ _ _ _ Hread1).
      change (exec (sink sid r1)
                (World (trace w1) (<[c:=AnyCell true]> (heap w1))
                       (pending w1)))
        with (log (EvSink sid r1) w1').
      set (X := postf (log (EvSink sid r1) w1')).
      assert (B1 : advances (length (heap wa)) (log (EvSink sid r1) w1') X).
      { apply Apf. simpl. rewrite length_insert. lia. }
      assert (LX : S c <= length (heap X)).
      { destruct B1 as [_ L _ _]. simpl in L. rewrite length_insert in L.
        lia. }
      destruct (Hg X) as (w2 & postg & A2 & Apg & Eg).
      assert (Hread2 : heap w2 !! c = Some (AnyCell true)).
      { destruct A2 as [_ _ C _]. rewrite C by lia.
        destruct B1 as [_ _ C' _]. rewrite C' by lia. simpl.
        apply list_lookup_insert_eq. lia. }
      rewrite !Eg.
      * rewrite (exec_assign_later _ _ _ _ Hread2). reflexivity.
      * apply respects_dead.
      * apply respects_assign; [apply respects_sink|lia].
  - intros i j a b hl hr started n. subst started n.
    rewrite or_mapped_deferred_started.
    split; [apply new_events_app; reflexivity|].
    rewrite complete_first, complete_second.
    cbn [exec trace heap pending].
    rewrite !exec_assign_first by apply lookup_alloc.
    cbn [trace heap pending exec sink]. rewrite !insert_alloc.
    rewrite !complete_only.
    cbn [exec trace heap pending].
    rewrite !exec_assign_later by apply lookup_alloc.
    split; apply new_events_app; cbn [trace];
      rewrite <- ?app_assoc; reflexivity.
Qed.

Lemma race_loser_still_runs_witness :
  exists w1 postf,
    (forall k, respects (S (length (heap empty_world))) k ->
       exec (future_done (make_successful_future (VInt 1)) k)
            (new_cell (AnyCell false) empty_world)
       = postf (exec (k (Success (VInt 1))) w1)) /\
    exec (future_done
            (future_or (make_successful_future (VInt 1))
               (future_of_starter (sync_starter 4 (Failed (Failure 2)))))
            (sink 0)) empty_world
    = exec (future_done
              (future_of_starter (sync_starter 4 (Failed (Failure 2))))
              (fun _ => Ret))
           (postf (log (EvSink 0 (Success (VInt 1)))
                     (set_cell (length (heap empty_world)) (AnyCell true)
                        w1))).
Proof.
  destruct (race_loser_still_runs (make_successful_future (VInt 1))
              (future_of_starter (sync_starter 4 (Failed (Failure 2))))
              (Success (VInt 1)) (Failed (Failure 2)) 0 empty_world)
    as [H _].
  - apply delivers_now.
  - apply (delivers_emit (EvStart 4) (fun k => k (Failed (Failure 2))));
      [reflexivity|apply delivers_now].
  - exact H.
Defined.

(** The loser's starter runs after the sink has been served. *)
Example race_loser_trace :
  trace (exec (future_done
                 (future_or (make_successful_future (VInt 1))
                    (future_of_starter (sync_starter 4 (Failed (Failure 2)))))
                 (sink 0)) empty_world)
  = [EvSink 0 (Success (VInt 1)); EvStart 4].
Proof. reflexivity. Qed.

(** C7. A [fail] stage forwards a successful inbound result unchanged; on a
    failure it enters the callback with the error taken out of the failure
    and delivers what the callback returns into the downstream promise: the
    returned [result] is resolved, a bare [failure] is handed over as a
    failure.  For the types, a callback returning bare [failure] leaves the
    future's type [T] as it was, one returning [result<U>] gives [U], and
    any other return type is rejected. *)
Theorem fail_forwards_or_recovers (f : future) (r : concrete_result)
    (fcb : fail_callback) (sid : nat) (w : world) :
  yields f r ->
  (forall e, envelope (result_of_return (fail_body fcb e))) ->
  (exists w1 post,
     advances (length (heap w)) w w1 /\
     (forall k, respects (length (heap w)) k ->
        exec (future_done f k) w = post (exec (k r) w1)) /\
     (forall v, r = Success v ->
        exec (future_done (future_fail f fcb) (sink sid)) w
        = post (log (EvSink sid (Success v)) w1)) /\
     (forall fl res, r = Failed fl ->
        fail_body fcb (error fl) = ReturnsResult res ->
        exec (future_done (future_fail f fcb) (sink sid)) w
        = post (exec (resolve_promise res (sink sid))
                     (log (EvCall (fail_id fcb) (Failed fl)) w1))) /\
     (forall fl f', r = Failed fl ->
        fail_body fcb (error fl) = ReturnsFailure f' ->
        exec (future_done (future_fail f fcb) (sink sid)) w
        = post (log (EvSink sid (Failed f'))
                  (log (EvCall (fail_id fcb) (Failed fl)) w1)))) /\
  (forall T U,
     resulting_failure_type TFailure T = Some T /\
     resulting_failure_type (TResult U) T = Some U /\
     resulting_failure_type TVoid T = None /\
     resulting_failure_type TInt T = None /\
     resulting_failure_type (TConcreteResult U) T = None).
Proof.
  intros Hf Hfcb. split; [|intros T U; repeat split].
  destruct (Hf w) as (w1 & post & A1 & Apost & Heq).
  exists w1, post. split; [exact A1|]. split; [exact Heq|].
  assert (Hfail : forall x, exists r',
    delivers (fun p =>
      if success x then p x
      else match get_failure x with
           | Some f =>
               Emit (EvCall (fail_id fcb) x)
                 (resolve_promise
                    (result_of_return (fail_body fcb (error f))) p)
           | None => Ret
           end) r').
  { apply fail_stage_delivers. intros e. apply envelope_delivers, Hfcb. }
  pose proof (Heq _ (delivers_respects _ _ (sink sid) Hfail
                       (respects_sink _ sid))) as E.
  split; [|split].
  - intros v ->. exact E.
  - intros fl res -> Hb. simpl in E. rewrite Hb in E. exact E.
  - intros fl f' -> Hb. simpl in E. rewrite Hb in E. exact E.
Qed.

Lemma fail_forwards_or_recovers_witness :
  exists w1 post,
    advances (length (heap empty_world)) empty_world w1 /\
    exec (future_done (future_fail (make_failed_future 7) recover_callback)
            (sink 0)) empty_world
    = post (exec (resolve_promise (RValue (VInt 8)) (sink 0))
                 (log (EvCall (fail_id recover_callback) (Failed (Failure 7)))
                    w1)) /\
    exec (future_done (future_fail (make_failed_future 7) recover_callback)
            (sink 0)) empty_world
    = World [EvCall 2 (Failed (Failure 7)); EvSink 0 (Success (VInt 8))]
            [] [].
Proof.
  destruct (fail_forwards_or_recovers (make_failed_future 7)
              (Failed (Failure 7)) recover_callback 0 empty_world)
    as [(w1 & post & A1 & _ & _ & Hres & _) _].
  - apply delivers_now.
  - intros e. constructor.
  - exists w1, post. split; [exact A1|]. split; [|reflexivity].
    apply (Hres (Failure 7) (RValue (VInt 8))); reflexivity.
Defined.

(** Scenario S2 and a bare failure returned by the handler. *)
Example fail_recovers :
  trace (exec (future_done
                 (future_fail
                    (future_then (make_successful_future (VInt 1))
                       (ThenCallback 1 (fun _ => RFailure (Failure 7))))
                    recover_callback)
                 (sink 0)) empty_world)
  = [EvCall 1 (Success (VInt 1)); EvCall 2 (Failed (Failure 7));
     EvSink 0 (Success (VInt 8))].
Proof. reflexivity. Qed.

Example fail_rethrows :
  trace (exec (future_done
                 (future_fail (make_failed_future 7) rethrow_callback)
                 (sink 0)) empty_world)
  = [EvCall 3 (Failed (Failure 7)); EvSink 0 (Failed (Failure 7))].
Proof. reflexivity. Qed.

(** C8. [finally(h)] is [map(h)]: the two futures are the same, and after
    any upstream that hands over [r], success or failure, either of them
    enters [h] once with [r] and hands what [h] returns, as it is, to the
    downstream promise. *)
Theorem finally_is_map (f : future) (h : map_callback)
    (r : concrete_result) (sid : nat) (w : world) :
  yields f r ->
  future_finally f h = future_map f h /\
  (forall k, future_done (future_finally f h) k
             = future_done (future_map f h) k) /\
  exists w1 post,
    advances (length (heap w)) w w1 /\
    (forall k, respects (length (heap w)) k ->
       exec (future_done f k) w = post (exec (k r) w1)) /\
    exec (future_done (future_map f h) (sink sid)) w
    = post (log (EvSink sid (map_body h r)) (log (EvCall (map_id h) r) w1)) /\
    exec (future_done (future_finally f h) (sink sid)) w
    = post (log (EvSink sid (map_body h r)) (log (EvCall (map_id h) r) w1)).
Proof.
  intros Hf. split; [reflexivity|]. split; [reflexivity|].
  destruct (Hf w) as (w1 & post & A1 & Apost & Heq).
  exists w1, post. split; [exact A1|]. split; [exact Heq|].
  assert (E : exec (future_done (future_map f h) (sink sid)) w
              = post (log (EvSink sid (map_body h r))
                        (log (EvCall (map_id h) r) w1))).
  { apply (Heq (fun x => Emit (EvCall (map_id h) x)
                           (sink sid (map_body h x)))).
    apply (delivers_respects _
             (fun x p => Emit (EvCall (map_id h) x) (p (map_body h x)))
             (sink sid)).
    - intros x. exists (map_body h x). apply map_stage_delivers.
    - apply respects_sink. }
  split; exact E.
Qed.

Lemma finally_is_map_witness :
  future_finally (make_failed_future 3) negate_callback
  = future_map (make_failed_future 3) negate_callback /\
  exec (future_done (future_finally (make_failed_future 3) negate_callback)
          (sink 0)) empty_world
  = exec (future_done (future_map (make_failed_future 3) negate_callback)
            (sink 0)) empty_world.
Proof.
  destruct (finally_is_map (make_failed_future 3) negate_callback
              (Failed (Failure 3)) 0 empty_world)
    as (H1 & H2 & _).
  - apply delivers_now.
  - split; [exact H1|]. rewrite H2. reflexivity.
Defined.

Example finally_sees_failure :
  trace (exec (future_done
                 (future_finally (make_failed_future 3) negate_callback)
                 (sink 0)) empty_world)
  = [EvCall 4 (Failed (Failure 3)); EvSink 0 (Success (VInt 3))].
Proof. reflexivity. Qed.

(** C9. Evaluating [make_successful_future(v).then(f).done(sink)] is the
    same action as entering [f] with [v] and calling [resolve_promise(sink)]
    on the [result] it returns; in particular the sink is handed the same
    outcome from the same world. *)
Theorem then_of_successful_future (v : val) (f : then_callback)
    (snk : promise) (w : world) :
  future_done (future_then (make_successful_future v) f) snk
  = call_then f v (fun res => resolve_promise res snk) /\
  exec (future_done (future_then (make_successful_future v) f) snk) w
  = exec (resolve_promise (then_body f v) snk)
         (log (EvCall (then_id f) (Success v)) w).
Proof. split; reflexivity. Qed.

(** Scenario S1. *)
Example chain_of_stages :
  trace (exec (future_done
                 (future_fail
                    (future_then
                       (future_then (make_successful_future (VInt 6581))
                          (ThenCallback 1 (fun _ => RValue (VStr "text"))))
                       (ThenCallback 2 (fun _ => RFailure (Failure 2))))
                    rethrow_callback)
                 (sink 0)) empty_world)
  = [EvCall 1 (Success (VInt 6581)); EvCall 2 (Success (VStr "text"));
     EvCall 3 (Failed (Failure 2)); EvSink 0 (Failed (Failure 2))].
Proof. reflexivity. Qed.

(** ** Further properties of the combinators *)

Lemma hands_over_successful v :
  hands_over (make_successful_future v) (Success v) [].
Proof.
  intros k w. simpl. rewrite app_nil_r. destruct w; reflexivity.
Qed.

Lemma hands_over_failed e :
  hands_over (make_failed_future e) (Failed (Failure e)) [].
Proof.
  intros k w. simpl. rewrite app_nil_r. destruct w; reflexivity.
Qed.

Lemma hands_over_starter id r :
  hands_over (future_of_starter (sync_starter id r)) r [EvStart id].
Proof. intros k w. reflexivity. Qed.

Lemma hands_over_stage f r pre s :
  hands_over f r pre ->
  forall k w,
    exec (future_done (stage_apply f s) k) w
    = exec (stage_fun s r k) (World (trace w ++ pre) (heap w) (pending w)).
Proof.
  intros Hf k w. destruct s as [cb|coro|cb|cb|ex].
  - exact (Hf (fun x => stage_fun (SThen cb) x k) w).
  - exact (Hf (fun x => stage_fun (SThenCoro coro) x k) w).
  - exact (Hf (fun x => stage_fun (SFail cb) x k) w).
  - exact (Hf (fun x => stage_fun (SMap cb) x k) w).
  - exact (Hf (fun x => stage_fun (SEnqueue ex) x k) w).
Qed.

Lemma done_stage_apply g s k :
  future_done (stage_apply g s) k
  = future_done g (fun x => stage_fun s x k).
Proof. destruct s; reflexivity. Qed.

Lemma after_stages_promise (keep : concrete_result -> bool)
    (select : stage -> bool) f stages :
  (forall s x p, select s = true -> keep x = true -> stage_fun s x p = p x) ->
  forallb select stages = true ->
  forall k, exists k',
    future_done (after_stages f stages) k = future_done f k' /\
    forall x, keep x = true -> k' x = k x.
Proof.
  intros Hskip. revert f. induction stages as [|s rest IH]; intros f Hs k.
  - exists k. split; [reflexivity|]. intros; reflexivity.
  - simpl in Hs. apply andb_prop in Hs as [Hs Hrest].
    destruct (IH (stage_apply f s) Hrest k) as (k1 & E & Ek).
    exists (fun x => stage_fun s x k1). split.
    + etransitivity; [exact E|]. apply done_stage_apply.
    + intros x Hx. rewrite (Hskip s x k1 Hs Hx). apply Ek. exact Hx.
Qed.

(** X1. Error short-circuit.  Any number of [then] stages appended to a
    future, with callbacks or with prepared futures, hands the upstream part
    a promise that passes a failure straight to the downstream promise: no
    callback is entered and no prepared future is started, whatever the
    upstream part is and whenever it completes.  In particular a future that
    hands over a failure still hands over the same failure, after the same
    events, with the stages appended. *)
Theorem failure_skips_then_stages (f : future) (stages : list stage) :
  forallb is_then_stage stages = true ->
  (forall k, exists k',
     future_done (after_stages f stages) k = future_done f k' /\
     forall fl, k' (Failed fl) = k (Failed fl)) /\
  (forall fl pre, hands_over f (Failed fl) pre ->
     hands_over (after_stages f stages) (Failed fl) pre).
Proof.
  intros Hs.
  assert (H : forall k, exists k',
     future_done (after_stages f stages) k = future_done f k' /\
     forall fl, k' (Failed fl) = k (Failed fl)).
  { intros k.
    destruct (after_stages_promise (fun x => negb (success x)) is_then_stage
                f stages) with (k := k) as (k' & E & Ek).
    - intros [cb|coro|cb|cb|ex] [v|fl] p Hsel Hx; try discriminate;
        reflexivity.
    - exact Hs.
    - exists k'. split; [exact E|]. intros fl. apply Ek. reflexivity. }
  split; [exact H|]. intros fl pre Hf k w.
  destruct (H k) as (k' & E & Ek). rewrite E, (Hf k' w), Ek. reflexivity.
Qed.

Lemma failure_skips_then_stages_witness :
  hands_over
    (after_stages (make_failed_future 5)
       [SThen echo_callback;
        SThenCoro (future_of_starter (sync_starter 4 (Success VVoid)));
        SThen echo_callback])
    (Failed (Failure 5)) [].
Proof.
  apply (failure_skips_then_stages (make_failed_future 5)
           [SThen echo_callback;
            SThenCoro (future_of_starter (sync_starter 4 (Success VVoid)));
            SThen echo_callback]).
  - reflexivity.
  - apply hands_over_failed.
Defined.

(** X2. Any number of [fail] stages appended to a future hands the upstream
    part a promise that passes a success straight to the downstream promise:
    no handler is entered, whatever the upstream part is and whenever it
    completes.  In particular a future that hands over a value still hands
    over the same value, after the same events, with the stages appended. *)
Theorem success_skips_fail_stages (f : future) (stages : list stage) :
  forallb is_fail_stage stages = true ->
  (forall k, exists k',
     future_done (after_stages f stages) k = future_done f k' /\
     forall v, k' (Success v) = k (Success v)) /\
  (forall v pre, hands_over f (Success v) pre ->
     hands_over (after_stages f stages) (Success v) pre).
Proof.
  intros Hs.
  assert (H : forall k, exists k',
     future_done (after_stages f stages) k = future_done f k' /\
     forall v, k' (Success v) = k (Success v)).
  { intros k.
    destruct (after_stages_promise success is_fail_stage f stages)
      with (k := k) as (k' & E & Ek).
    - intros [cb|coro|cb|cb|ex] [v|fl] p Hsel Hx; try discriminate;
        reflexivity.
    - exact Hs.
    - exists k'. split; [exact E|]. intros v. apply Ek. reflexivity. }
  split; [exact H|]. intros v pre Hf k w.
  destruct (H k) as (k' & E & Ek). rewrite E, (Hf k' w), Ek. reflexivity.
Qed.

Lemma success_skips_fail_stages_witness :
  hands_over
    (after_stages (make_successful_future (VInt 1))
       [SFail recover_callback; SFail rethrow_callback])
    (Success (VInt 1)) [].
Proof.
  apply (success_skips_fail_stages (make_successful_future (VInt 1))
           [SFail recover_callback; SFail rethrow_callback]).
  - reflexivity.
  - apply hands_over_successful.
Defined.

(** X3. A failure returned by a [then] callback is what the next [fail]
    stage sees: the handler is entered with the error right after the
    callback, and whatever it returns is resolved into the downstream
    promise; a returned value recovers the future, a returned bare failure
    replaces the failure. *)
Theorem failure_in_then_is_caught (f : future) (v : val) (pre : list event)
    (cb : then_callback) (g : fail_callback) (fl : failure) :
  hands_over f (Success v) pre ->
  then_body cb v = RFailure fl ->
  let caught := pre ++ [EvCall (then_id cb) (Success v);
                        EvCall (fail_id g) (Failed fl)] in
  (forall k w,
     exec (future_done (future_fail (future_then f cb) g) k) w
     = exec (resolve_promise (result_of_return (fail_body g (error fl))) k)
            (World (trace w ++ caught) (heap w) (pending w))) /\
  (forall u, fail_body g (error fl) = ReturnsResult (RValue u) ->
     hands_over (future_fail (future_then f cb) g) (Success u) caught) /\
  (forall fl', fail_body g (error fl) = ReturnsFailure fl' ->
     hands_over (future_fail (future_then f cb) g) (Failed fl') caught).
Proof.
  intros Hf Hcb caught.
  assert (H : forall k w,
     exec (future_done (future_fail (future_then f cb) g) k) w
     = exec (resolve_promise (result_of_return (fail_body g (error fl))) k)
            (World (trace w ++ caught) (heap w) (pending w))).
  { intros k w.
    etransitivity;
      [exact (Hf (fun x => stage_fun (SThen cb) x
                             (fun y => stage_fun (SFail g) y k)) w)|].
    simpl. unfold call_then. rewrite Hcb. simpl. unfold caught.
    rewrite <- !app_assoc. reflexivity. }
  split; [exact H|]. split.
  - intros u Hg k w. rewrite H, Hg. reflexivity.
  - intros fl' Hg k w. rewrite H, Hg. reflexivity.
Qed.

Lemma failure_in_then_is_caught_witness :
  hands_over
    (future_fail
       (future_then (make_successful_future (VInt 1))
          (ThenCallback 1 (fun _ => RFailure (Failure 7))))
       recover_callback)
    (Success (VInt 8))
    ([] ++ [EvCall 1 (Success (VInt 1)); EvCall 2 (Failed (Failure 7))]).
Proof.
  destruct (failure_in_then_is_caught (make_successful_future (VInt 1))
              (VInt 1) [] (ThenCallback 1 (fun _ => RFailure (Failure 7)))
              recover_callback (Failure 7))
    as (_ & H & _).
  - apply hands_over_successful.
  - reflexivity.
  - apply (H (VInt 8)). reflexivity.
Defined.




(** X5. A future returned by a [then] callback is awaited: right after the
    callback is entered the returned future is evaluated into the downstream
    promise, so the stage hands over whatever the returned future hands
    over; when the returned future is still outstanding the promise has not
    been invoked, and it is invoked with the future's outcome when the
    outside world completes it. *)
Theorem returned_future_is_awaited (f : future) (v : val) (pre : list event)
    (cb : then_callback) (coro : future) :
  hands_over f (Success v) pre ->
  then_body cb v = RFuture coro ->
  let entered := pre ++ [EvCall (then_id cb) (Success v)] in
  (forall k w,
     exec (future_done (future_then f cb) k) w
     = exec (future_done coro k)
            (World (trace w ++ entered) (heap w) (pending w))) /\
  (forall r pre', hands_over coro r pre' ->
     hands_over (future_then f cb) r (entered ++ pre')) /\
  (forall id r sid w,
     coro = future_of_starter (deferred_starter id r) ->
     let started := exec (future_done (future_then f cb) (sink sid)) w in
     started = World (trace w ++ entered ++ [EvStart id]) (heap w)
                     (pending w ++ [sink sid r]) /\
     complete (length (pending w)) started
     = World (trace w ++ entered ++ [EvStart id; EvSink sid r])
             (heap w) (pending w)).
Proof.
  intros Hf Hcb entered.
  assert (H : forall k w,
     exec (future_done (future_then f cb) k) w
     = exec (future_done coro k)
            (World (trace w ++ entered) (heap w) (pending w))).
  { intros k w.
    etransitivity; [exact (Hf (fun x => stage_fun (SThen cb) x k) w)|].
    simpl. unfold call_then. rewrite Hcb. simpl. unfold entered.
    rewrite <- app_assoc. reflexivity. }
  split; [exact H|]. split.
  - intros r pre' Hc k w. rewrite H, (Hc k). cbn [trace heap pending].
    rewrite <- app_assoc. reflexivity.
  - intros id r sid w Hco started.
    assert (E : started
                = World (trace w ++ entered ++ [EvStart id]) (heap w)
                        (pending w ++ [sink sid r])).
    { subst started. rewrite H, Hco. simpl. rewrite <- app_assoc.
      reflexivity. }
    split; [exact E|]. rewrite E, complete_only. simpl.
    rewrite <- !app_assoc. reflexivity.
Qed.

Lemma returned_future_is_awaited_witness :
  hands_over
    (future_then (make_successful_future (VInt 1))
       (ThenCallback 1 (fun _ => RFuture (make_failed_future 9))))
    (Failed (Failure 9))
    (([] ++ [EvCall 1 (Success (VInt 1))]) ++ []).
Proof.
  destruct (returned_future_is_awaited (make_successful_future (VInt 1))
              (VInt 1) []
              (ThenCallback 1 (fun _ => RFuture (make_failed_future 9)))
              (make_failed_future 9))
    as (_ & H & _).
  - apply hands_over_successful.
  - reflexivity.
  - apply (H (Failed (Failure 9)) []). apply hands_over_failed.
Defined.

(** X6. The return-type checks of the handlers.  The [static_assert] of
    [resulting_successful_type] fires exactly for the return types that are
    neither [result<U>] nor [void], and the one of [resulting_failure_type]
    exactly for those that are neither [result<U>] nor [failure]; a return
    type that both a [then] and a [fail] handler may use is a [result<U>],
    and both give the next future the type [U]. *)
Theorem callback_return_types_checked (returned fallback : cpp_type) :
  (resulting_successful_type returned = None
   <-> then_return_type_ok returned = false) /\
  (resulting_failure_type returned fallback = None
   <-> fail_return_type_ok returned = false) /\
  (forall t u,
     resulting_successful_type returned = Some t ->
     resulting_failure_type returned fallback = Some u ->
     returned = TResult t /\ u = t) /\
  (is_result_v returned = true
   <-> exists u, returned = TResult u).
Proof.
  split; [|split; [|split]].
  - unfold then_return_type_ok.
    destruct returned; simpl; split; intros H; congruence.
  - unfold fail_return_type_ok.
    destruct returned; simpl; split; intros H; congruence.
  - intros t u Ht Hu. destruct returned; simpl in *; try discriminate.
    split; congruence.
  - split.
    + destruct returned; simpl; try discriminate. intros _. eauto.
    + intros [u ->]. reflexivity.
Qed.

Lemma delivers_bind_to run stage r r' :
  delivers run r ->
  (forall x, exists r0, delivers (stage x) r0) ->
  delivers (stage r) r' ->
  delivers (fun k => run (fun x => stage x k)) r'.
Proof.
  intros Hrun Hstage Hd w.
  destruct (Hrun w) as (w1 & post1 & A1 & Apost1 & Heq1).
  destruct (Hd w1) as (w2 & post2 & A2 & Apost2 & Heq2).
  exists w2, (fun w' => post1 (post2 w')). split; [|split].
  - eapply advances_trans; [|exact A1|exact A2]. apply A1.
  - intros w' Hw'. pose proof (Apost2 w' Hw') as B2.
    apply (advances_trans _ (length (heap w)) _ (post2 w')); [lia| |].
    + eapply advances_weaken; [|exact B2]. apply A1.
    + apply Apost1. destruct A2, B2. lia.
  - intros k Hk.
    rewrite Heq1 by (apply delivers_respects; assumption).
    rewrite Heq2; [reflexivity|].
    eapply respects_mono; [|exact Hk]. apply A1.
Qed.

Lemma map_yields f r cb :
  yields f r -> yields (future_map f cb) (map_body cb r).
Proof.
  intros Hf.
  apply (delivers_bind_to (future_done f)
           (fun x p => Emit (EvCall (map_id cb) x) (p (map_body cb x))) r).
  - exact Hf.
  - intros x. exists (map_body cb x). apply map_stage_delivers.
  - apply map_stage_delivers.
Qed.

(** X7. [map] composes: two [map] stages in a row give the outcome of the
    second callback applied to the outcome of the first, which is also what
    one [map] stage with the composed callback gives; a [map] stage whose
    callback returns its argument leaves the outcome as it was. *)
Theorem map_composes (f : future) (r : concrete_result)
    (g h : map_callback) :
  yields f r ->
  yields (future_map (future_map f g) h) (map_body h (map_body g r)) /\
  (forall gh, (forall x, map_body gh x = map_body h (map_body g x)) ->
     yields (future_map f gh) (map_body h (map_body g r))) /\
  ((forall x, map_body g x = x) -> yields (future_map f g) r).
Proof.
  intros Hf. split; [|split].
  - apply map_yields, map_yields, Hf.
  - intros gh Hgh. rewrite <- Hgh. apply map_yields, Hf.
  - intros Hid. pose proof (map_yields f r g Hf) as H.
    rewrite Hid in H. exact H.
Qed.

Lemma map_composes_witness :
  yields (future_map (future_map (make_failed_future 3) negate_callback)
            negate_callback)
         (map_body negate_callback
            (map_body negate_callback (Failed (Failure 3)))).
Proof.
  apply (map_composes (make_failed_future 3) (Failed (Failure 3))
           negate_callback negate_callback).
  apply delivers_now.
Defined.

(** X8. What a [fail] handler that never returns a future does to the
    outcome.  A handler that returns the error it was given as a bare
    [failure] leaves the outcome of the future as it was; a handler that
    always returns a value makes the future succeed, with the upstream value
    when there was one and with the handler's value otherwise. *)
Theorem fail_rethrows_or_recovers (f : future) (r : concrete_result)
    (g : fail_callback) :
  yields f r ->
  ((forall e, fail_body g e = ReturnsFailure (Failure e)) ->
   yields (future_fail f g) r) /\
  (forall rec : error_type -> val,
     (forall e, fail_body g e = ReturnsResult (RValue (rec e))) ->
     yields (future_fail f g)
            (Success match r with
                     | Success v => v
                     | Failed fl => rec (error fl)
                     end)).
Proof.
  intros Hf. split.
  - intros Hg.
    apply (delivers_bind_to (future_done f) (stage_fun (SFail g)) r).
    + exact Hf.
    + apply fail_stage_delivers. intros e. rewrite Hg.
      exists (Failed (Failure e)). apply delivers_now.
    + destruct r as [v|[e]]; simpl.
      * apply delivers_now.
      * rewrite Hg. apply delivers_emit; [reflexivity|apply delivers_now].
  - intros rec Hg.
    apply (delivers_bind_to (future_done f) (stage_fun (SFail g)) r).
    + exact Hf.
    + apply fail_stage_delivers. intros e. rewrite Hg.
      exists (Success (rec e)). apply delivers_now.
    + destruct r as [v|[e]]; simpl.
      * apply delivers_now.
      * rewrite Hg. apply delivers_emit; [reflexivity|apply delivers_now].
Qed.

Lemma fail_rethrows_or_recovers_witness :
  yields (future_fail (make_failed_future 4) rethrow_callback)
         (Failed (Failure 4)).
Proof.
  apply (fail_rethrows_or_recovers (make_failed_future 4)
           (Failed (Failure 4)) rethrow_callback).
  - apply delivers_now.
  - intros e. reflexivity.
Defined.



(** X10. Chaining is associative: a [then] stage appended after a stage
    whose callback returns a future is the same as appending it, inside the
    callback, to the future returned; and a [then] stage whose callback
    returns its argument only adds the entry of that callback. *)
Theorem then_is_associative (f : future) (r : concrete_result)
    (pre : list event) (id : nat) (inner : val -> future)
    (h : then_callback) :
  hands_over f r pre ->
  (forall k w,
     exec (future_done
             (future_then
                (future_then f (ThenCallback id (fun v => RFuture (inner v))))
                h) k) w
     = exec (future_done
               (future_then f
                  (ThenCallback id
                     (fun v => RFuture (future_then (inner v) h)))) k) w) /\
  (forall v, r = Success v ->
     hands_over (future_then f (ThenCallback id (fun x => RValue x)))
                r (pre ++ [EvCall id r])).
Proof.
  intros Hf. split.
  - intros k w.
    etransitivity;
      [exact (Hf (fun x =>
                stage_fun (SThen (ThenCallback id
                                    (fun v => RFuture (inner v)))) x
                  (fun y => stage_fun (SThen h) y k)) w)|].
    symmetry.
    etransitivity;
      [exact (Hf (fun x =>
                stage_fun (SThen (ThenCallback id
                            (fun v => RFuture (future_then (inner v) h))))
                  x k) w)|].
    destruct r as [v|fl]; reflexivity.
  - intros v -> k w.
    etransitivity;
      [exact (Hf (fun x =>
                stage_fun (SThen (ThenCallback id (fun x => RValue x))) x k)
                 w)|].
    simpl. rewrite <- app_assoc. reflexivity.
Qed.

Lemma then_is_associative_witness :
  hands_over
    (future_then (make_successful_future (VInt 1))
       (ThenCallback 5 (fun x => RValue x)))
    (Success (VInt 1)) ([] ++ [EvCall 5 (Success (VInt 1))]).
Proof.
  destruct (then_is_associative (make_successful_future (VInt 1))
              (Success (VInt 1)) [] 5
              (fun v => make_successful_future v) echo_callback)
    as (_ & H).
  - apply hands_over_successful.
  - apply (H (VInt 1)). reflexivity.
Defined.
